(** * Hashtag collocation analysis: co-occurrence counts, PMI and ranking

    A shallow embedding of the hashtag collocation script
    ([load_and_extract_hashtags], [calculate_cooccurrence_matrix],
    [calculate_pmi], [get_top_collocations],
    [analyze_hashtag_collocations]) together with the properties its
    specification states about it.

    Modelling conventions.
    - A tag is a [string]; a Python [str] is read as its UTF-8 bytes, on
      which the byte-wise lexicographic order of [String.ltb] and
      [String.leb] is Python's code-point order.
    - Counts are [Z].  The frame stores them as 64-bit integers and adds
      them with wrap-around at 2^63; a cell of a matrix that the script
      builds only grows by one per tag pair of the input, so the wrap-around
      is out of reach of any input that fits in memory.  Cells and sums are
      exact in the model: it is the script on the frames whose sums fit in
      64 bits ([sums_fit]), and what is stated about a frame that the
      script did not build itself assumes that they do.
    - Probabilities and PMI scores are IEEE 754 binary64 numbers, the
      kernel's primitive [float]: division by zero, infinities and NaN
      behave as they do in NumPy, where a division by zero is a warning and
      not an exception.
    - A frame made of integer zeros turns a column into binary64 when a
      score that is not an integer is stored in it (the behaviour of the
      frame library at the time of the script, where this is at most a
      warning); cells are compared as numbers, so the PMI frame holds
      binary64 values throughout.
    - What the script takes from its run-time libraries and the source does
      not fix is a parameter of the development: [lower] ([str.lower]),
      [list_of_set] (the iteration order of a built-in [set]), [log2]
      ([numpy.log2]) and [sort_values] (the frame library's sort with its
      default algorithm).
    - A Python exception is a [Raise] outcome of the [result] type. *)

From Stdlib Require Import ZArith String Ascii Bool Floats Lia.
From Stdlib Require Import List Permutation Sorting.
Import ListNotations.

Local Open Scope Z_scope.
Local Open Scope string_scope.
Local Open Scope list_scope.

(** ** Exceptions *)

Inductive exception : Type :=
| KeyError (label : string).

Inductive result (A : Type) : Type :=
| Ok (a : A)
| Raise (e : exception).

Arguments Ok {A} a.
Arguments Raise {A} e.

Definition bind {A B : Type} (r : result A) (k : A -> result B) : result B :=
  match r with
  | Ok a => k a
  | Raise e => Raise e
  end.

Notation "x <- r ;; k" := (bind r (fun x => k))
  (at level 61, r at next level, right associativity).

(** [for_each body xs s]: the loop [for x in xs: s = body(s, x)], stopped by
    the first exception. *)
Fixpoint for_each {S A : Type} (body : S -> A -> result S) (xs : list A) (s : S)
  : result S :=
  match xs with
  | [] => Ok s
  | x :: rest => s' <- body s x ;; for_each body rest s'
  end.

(** ** Labelled tables *)

Definition mem (k : string) (ks : list string) : bool :=
  existsb (String.eqb k) ks.

(** A [Series]: values addressed by label. *)
Record Series (V : Type) : Type := mkSeries {
  labels : list string;
  item : string -> V
}.

Arguments mkSeries {V}.
Arguments labels {V}.
Arguments item {V}.

(** [s[k]]: a label that is not in the series raises [KeyError]. *)
Definition getitem {V : Type} (s : Series V) (k : string) : result V :=
  if mem k (labels s) then Ok (item s k) else Raise (KeyError k).

(** A [DataFrame]: cells addressed by a row label and a column label.
    [cell] is only meaningful on [index] x [columns], and the labels of
    each axis are meant to be distinct (see [unique_labels]): with a
    repeated label the library returns a sub-frame where the model returns a
    cell. *)
Record DataFrame (V : Type) : Type := mkDataFrame {
  index : list string;
  columns : list string;
  cell : string -> string -> V
}.

Arguments mkDataFrame {V}.
Arguments index {V}.
Arguments columns {V}.
Arguments cell {V}.

(** [pd.DataFrame(v, index=rows, columns=cols)] *)
Definition full {V : Type} (v : V) (rows cols : list string) : DataFrame V :=
  mkDataFrame rows cols (fun _ _ => v).

(** [df.loc[r, c]] read: a missing label raises [KeyError]. *)
Definition loc {V : Type} (df : DataFrame V) (r c : string) : result V :=
  if mem r (index df) then
    if mem c (columns df) then Ok (cell df r c) else Raise (KeyError c)
  else Raise (KeyError r).

(** [df.loc[r, c] = v] for labels the frame has (the script never writes
    under a label that is not there, which would add a row or a column). *)
Definition set_loc {V : Type} (df : DataFrame V) (r c : string) (v : V)
  : DataFrame V :=
  mkDataFrame (index df) (columns df)
    (fun r' c' => if String.eqb r' r && String.eqb c' c then v else cell df r' c').

(** [df.loc[r, c] += k]: the read comes first and may raise. *)
Definition loc_iadd (df : DataFrame Z) (r c : string) (k : Z)
  : result (DataFrame Z) :=
  v <- loc df r c ;; Ok (set_loc df r c (v + k)).

Definition total (zs : list Z) : Z := fold_right Z.add 0 zs.

(** [df.sum()]: the sum of every column, a series over the column labels.
    The sums are exact; the library's are 64-bit sums, the same numbers as
    long as they fit in 64 bits (see [sums_fit]). *)
Definition df_sum (df : DataFrame Z) : Series Z :=
  mkSeries (columns df)
    (fun c => total (map (fun r => cell df r c) (index df))).

(** [s.sum()], exact like [df_sum]. *)
Definition series_sum (s : Series Z) : Z :=
  total (map (item s) (labels s)).

(** [df.head(n)]: the first [n] rows, and for a negative [n] all rows but the
    last [-n]. *)
Definition head {A : Type} (rows : list A) (n : Z) : list A :=
  if (0 <=? n)%Z then firstn (Z.to_nat n) rows
  else firstn (length rows - Z.to_nat (- n))%nat rows.

(** ** Numbers *)

(** A 64-bit integer converted to binary64, rounding to nearest even. *)
Definition float_of_Z (z : Z) : float :=
  SF2Prim (binary_normalize prec emax z 0 false).

(** ** The script *)

(** A parsed post: of its fields the script reads only ['hashtags'], which
    may be absent and otherwise holds a list of strings. *)
Record Post : Type := mkPost {
  hashtags : option (list string)
}.

(** A row of the ranking: [(tag1, tag2, pmi)]. *)
Definition Collocation : Type := (string * string * float)%type.

Definition pmi_of (row : Collocation) : float := snd row.

(** [itertools.combinations(xs, 2)]: the pairs of positions [i < j], in
    lexicographic order of the positions. *)
Fixpoint combinations2 {A : Type} (xs : list A) : list (A * A) :=
  match xs with
  | [] => []
  | x :: rest => map (pair x) rest ++ combinations2 rest
  end.

(** [sorted(xs)] on strings, by insertion. *)
Fixpoint insert_sorted (x : string) (xs : list string) : list string :=
  match xs with
  | [] => [x]
  | y :: rest => if String.leb x y then x :: xs else y :: insert_sorted x rest
  end.

Definition sorted (xs : list string) : list string :=
  fold_right insert_sorted [] xs.

Definition str_le (x y : string) : Prop := String.leb x y = true.

(** The value [analyze_hashtag_collocations] returns. *)
Record Analysis : Type := mkAnalysis {
  cooccurrence_matrix : DataFrame Z;
  pmi_matrix : DataFrame float;
  top_collocations : list Collocation
}.

Section Script.

(** [str.lower] *)
Variable lower : string -> string.
(** [list(set(xs))]: the distinct elements of [xs] in the order the set
    iterates them, which changes with the string hash seed of the run. *)
Variable list_of_set : list string -> list string.
(** [numpy.log2] *)
Variable log2 : float -> float.
(** [rows.sort_values('pmi', ascending=False)] with the default sorting
    algorithm. *)
Variable sort_values : list Collocation -> list Collocation.

Definition load_and_extract_hashtags (data : list Post) : list (list string) :=
  fold_left
    (fun all_post_hashtags post =>
       match hashtags post with
       | Some tags =>
           let hashtags := map lower tags in
           match hashtags with
           | [] => all_post_hashtags
           | _ :: _ => all_post_hashtags ++ [hashtags]
           end
       | None => all_post_hashtags
       end)
    data [].

Definition unique_hashtags (hashtag_lists : list (list string)) : list string :=
  sorted (list_of_set (concat hashtag_lists)).

(** The body of the inner loop: both cells of one pair. *)
Definition count_pair (m : DataFrame Z) (p : string * string)
  : result (DataFrame Z) :=
  let '(tag1, tag2) := p in
  m1 <- loc_iadd m tag1 tag2 1 ;;
  loc_iadd m1 tag2 tag1 1.

Definition calculate_cooccurrence_matrix (hashtag_lists : list (list string))
  : result (DataFrame Z * list string) :=
  let unique := unique_hashtags hashtag_lists in
  let zeros := full 0 unique unique in
  m <- for_each
         (fun m hashtags => for_each count_pair (combinations2 hashtags) m)
         hashtag_lists zeros ;;
  Ok (m, unique).

(** [cooccurrence_matrix.sum().sum() / 2], on the exact sums of [df_sum]
    and [series_sum]. *)
Definition total_cooccurrences (m : DataFrame Z) : float :=
  (float_of_Z (series_sum (df_sum m)) / 2)%float.

Definition marginal_probs (m : DataFrame Z) : Series float :=
  mkSeries (columns m)
    (fun c => (float_of_Z (item (df_sum m) c) / total_cooccurrences m)%float).

Definition joint_prob (m : DataFrame Z) (tag1 tag2 : string) : float :=
  (float_of_Z (cell m tag1 tag2) / total_cooccurrences m)%float.

(** The body of the inner loop of [calculate_pmi].  The cells read and
    written carry labels of the frames themselves; [marginal_probs] is a
    series over the columns and is asked for a row label too. *)
Definition pmi_cell (m : DataFrame Z) (tag1 : string)
    (pmi_matrix : DataFrame float) (tag2 : string) : result (DataFrame float) :=
  if String.eqb tag1 tag2 then Ok pmi_matrix
  else
    if (0 <? joint_prob m tag1 tag2)%float then
      p1 <- getitem (marginal_probs m) tag1 ;;
      p2 <- getitem (marginal_probs m) tag2 ;;
      let pmi := log2 (joint_prob m tag1 tag2 / (p1 * p2))%float in
      Ok (set_loc pmi_matrix tag1 tag2 pmi)
    else Ok pmi_matrix.

Definition calculate_pmi (m : DataFrame Z) : result (DataFrame float) :=
  for_each
    (fun pmi_matrix tag1 => for_each (pmi_cell m tag1) (columns m) pmi_matrix)
    (index m)
    (full 0%float (index m) (columns m)).

Definition pmi_values (pmi_matrix : DataFrame float) : list Collocation :=
  flat_map
    (fun tag1 =>
       flat_map
         (fun tag2 =>
            if String.ltb tag1 tag2
            then [(tag1, tag2, cell pmi_matrix tag1 tag2)]
            else [])
         (columns pmi_matrix))
    (index pmi_matrix).

(** [n] is optional and defaults to 10. *)
Definition get_top_collocations (pmi_matrix : DataFrame float) (n : option Z)
  : list Collocation :=
  let n := match n with Some k => k | None => 10 end in
  head (sort_values (pmi_values pmi_matrix)) n.

(** The script hands [json.loads] its argument first; the model starts
    from the parsed posts. *)
Definition analyze_hashtag_collocations (data : list Post) : result Analysis :=
  let hashtag_lists := load_and_extract_hashtags data in
  mu <- calculate_cooccurrence_matrix hashtag_lists ;;
  let '(cooccurrence_matrix, _) := mu in
  pmi_matrix <- calculate_pmi cooccurrence_matrix ;;
  let top_collocations := get_top_collocations pmi_matrix None in
  Ok (mkAnalysis cooccurrence_matrix pmi_matrix top_collocations).

End Script.

(** ** What the parameters are assumed to do *)

(** [list(set(xs))] holds every element of [xs] once, in some order. *)
Definition set_order (list_of_set : list string -> list string) : Prop :=
  forall xs, NoDup (list_of_set xs) /\ forall x, In x (list_of_set xs) <-> In x xs.

(** [x] may stand before [y] in a descending column: a NaN goes last. *)
Definition desc_ok (x y : float) : bool := is_nan y || (y <=? x)%float.

Definition ordered (r1 r2 : Collocation) : Prop :=
  desc_ok (pmi_of r1) (pmi_of r2) = true.

(** A descending column: every row may stand before every later row. *)
Definition descending (rows : list Collocation) : Prop :=
  StronglySorted ordered rows.

(** What [sort_values('pmi', ascending=False)] promises whatever the
    algorithm: the same rows, in descending order of the key. *)
Definition sorts_descending (sort_values : list Collocation -> list Collocation)
  : Prop :=
  forall rows, Permutation rows (sort_values rows) /\ descending (sort_values rows).

Definition same_key (k : float) (row : Collocation) : bool :=
  (pmi_of row =? k)%float.

(** A stable sort keeps rows of equal key in their order of arrival: the rows
    of any given key read the same before and after.  The default algorithm
    of [sort_values] ('quicksort') is documented as not stable, so this is
    not part of what [sort_values] is assumed to do. *)
Definition stable (sort_values : list Collocation -> list Collocation) : Prop :=
  forall rows k, filter (same_key k) (sort_values rows) = filter (same_key k) rows.

(** The number of binary digits of a mantissa. *)
Definition digits (m : positive) : Z := Z.pos (digits2_pos m).

(** The place of a binary64 number that is not a NaN in the order of the
    numbers: its class (infinities, negative, zero, positive), then its
    exponent and its mantissa, both negated for a negative number. *)
Definition sf_key (x : spec_float) : Z * Z * Z :=
  match x with
  | S754_zero _ => (0, 0, 0)
  | S754_infinity true => (-2, 0, 0)
  | S754_infinity false => (2, 0, 0)
  | S754_nan => (3, 0, 0)
  | S754_finite false m e => (1, e, Z.pos m)
  | S754_finite true m e => (-1, - e, Z.neg m)
  end.

Definition key_le (k1 k2 : Z * Z * Z) : Prop :=
  let '(a1, b1, c1) := k1 in
  let '(a2, b2, c2) := k2 in
  a1 < a2 \/ (a1 = a2 /\ (b1 < b2 \/ (b1 = b2 /\ c1 <= c2))).

(** ** Reading the posts *)

(** The tags of a post, none when the field is absent. *)
Definition tags_of (post : Post) : list string :=
  match hashtags post with
  | Some tags => tags
  | None => []
  end.

(** The post has the field and at least one tag in it. *)
Definition has_tags (post : Post) : bool :=
  match hashtags post with
  | Some (_ :: _) => true
  | _ => false
  end.

(** ** Well-formed frames *)

(** Label-based access is modelled for frames whose row labels are distinct
    and whose column labels are distinct, as in every frame the script
    builds. *)
Definition unique_labels {V : Type} (df : DataFrame V) : Prop :=
  NoDup (index df) /\ NoDup (columns df).

(** A co-occurrence matrix: distinct tags label the rows, the same tags
    label the columns, and no count is negative. *)
Definition cooccurrence_frame (m : DataFrame Z) : Prop :=
  NoDup (index m)
  /\ columns m = index m
  /\ forall r c, In r (index m) -> In c (index m) -> 0 <= cell m r c.

(** A 64-bit integer. *)
Definition int64 (z : Z) : Prop := - 2 ^ 63 <= z < 2 ^ 63.

(** The counts of the frame, the sum of each of its columns and the sum of
    all of them fit in 64 bits: the 64-bit sums of the library, which wrap
    around, are then the exact sums of [df_sum] and [series_sum]. *)
Definition sums_fit (m : DataFrame Z) : Prop :=
  (forall r c, In r (index m) -> In c (columns m) -> int64 (cell m r c))
  /\ (forall c, In c (columns m) -> int64 (item (df_sum m) c))
  /\ int64 (series_sum (df_sum m)).



(** ** The quantities of the specification

    What the specification of the PMI calculator and of the ranker names,
    written after its words and not after the script, to state what the
    script computes against. *)






(** "every pair (tag1, tag2) with tag1 strictly less than tag2": the upper
    triangle of the labels. *)
Definition upper_triangle {V : Type} (df : DataFrame V) : list (string * string) :=
  filter (fun pair => String.ltb (fst pair) (snd pair))
    (list_prod (index df) (columns df)).

(** ** Counting pairs *)

(** Every positional pair of every tag list, in the order the loops of
    [calculate_cooccurrence_matrix] visit them. *)
Definition all_pairs (hashtag_lists : list (list string)) : list (string * string) :=
  flat_map combinations2 hashtag_lists.

Definition ind (b : bool) : Z := if b then 1 else 0.

(** What one visited pair adds to the cell [(a, b)]: one for the cell
    [(tag1, tag2)], one for the cell [(tag2, tag1)]. *)
Definition hits (p : string * string) (a b : string) : Z :=
  ind (String.eqb a (fst p) && String.eqb b (snd p))
  + ind (String.eqb a (snd p) && String.eqb b (fst p)).

Definition pair_count (ps : list (string * string)) (a b : string) : Z :=
  total (map (fun p => hits p a b) ps).

(** The number of pairs of positions of a list of [k] elements. *)
Definition choose2 (k : Z) : Z := k * (k - 1) / 2.

(** [calculate_pmi] writes the cell of a pair: the tags differ and their
    joint probability is above zero. *)
Definition writes (m : DataFrame Z) (tag1 tag2 : string) : bool :=
  negb (String.eqb tag1 tag2) && (0 <? joint_prob m tag1 tag2)%float.

(** The PMI score [calculate_pmi] stores for a pair it writes. *)
Definition pmi_score (log2 : float -> float) (m : DataFrame Z) (tag1 tag2 : string)
  : float :=
  log2 (joint_prob m tag1 tag2
        / (item (marginal_probs m) tag1 * item (marginal_probs m) tag2))%float.

(** ** Instances of the parameters

    Concrete choices for the parameters, on which the development can be
    run: ASCII lower-casing, two iteration orders for sets, a piecewise
    linear [log2] that is exact on the powers of two, and an insertion sort
    that leaves equal keys in their order. *)

Definition lower_char (c : ascii) : ascii :=
  let n := nat_of_ascii c in
  if (Nat.leb 65 n && Nat.leb n 90)%bool then ascii_of_nat (n + 32) else c.

Fixpoint lower_ascii (s : string) : string :=
  match s with
  | EmptyString => EmptyString
  | String c rest => String (lower_char c) (lower_ascii rest)
  end.

Definition last_seen (xs : list string) : list string := nodup string_dec xs.

Definition last_seen_reversed (xs : list string) : list string :=
  rev (nodup string_dec xs).

Definition log2_interp (x : float) : float :=
  if is_nan x then nan
  else if (x <? 0)%float then nan
  else if (x =? 0)%float then neg_infinity
  else if (x =? infinity)%float then infinity
  else let '(m, e) := Z.frexp x in (float_of_Z e + (2 * m - 2))%float.

(** Insertion of a row before the first row it is allowed to precede. *)
Fixpoint insert_row (before : float -> float -> bool) (x : Collocation)
    (rows : list Collocation) : list Collocation :=
  match rows with
  | [] => [x]
  | y :: rest =>
      if before (pmi_of x) (pmi_of y) then x :: rows
      else y :: insert_row before x rest
  end.

Definition insertion_sort (before : float -> float -> bool)
    (rows : list Collocation) : list Collocation :=
  fold_right (insert_row before) [] rows.

(** A row goes before the rows that are not above it: equal keys stay in
    their order. *)
Definition sort_values_stable : list Collocation -> list Collocation :=
  insertion_sort desc_ok.

(** The tag lists of the worked example. *)
Definition example_lists : list (list string) :=
  [["a"; "b"]; ["a"; "b"]; ["a"; "c"]].

(** The co-occurrence matrix of the worked example, cell by cell. *)
Definition example_matrix : DataFrame Z :=
  mkDataFrame ["a"; "b"; "c"] ["a"; "b"; "c"] (pair_count (all_pairs example_lists)).

(** A PMI matrix over three tags with every score at zero. *)
Definition zero_scores : DataFrame float :=
  full 0%float ["a"; "b"; "c"] ["a"; "b"; "c"].

(** The ranking of the worked example: every pair of the upper triangle. *)
Definition example_ranking : list Collocation :=
  [("a", "b", 0%float); ("a", "c", 0%float); ("b", "c", 0%float)].

(** Three posts: mixed case, no ['hashtags'] field, an empty tag list. *)
Definition example_posts : list Post :=
  [mkPost (Some ["Care"; "hospice"]); mkPost None; mkPost (Some []);
   mkPost (Some ["care"; "Hospice"; "family"])].

(** ** Further notions *)

(** Labels in strictly ascending order. *)
Definition strictly_ascending (ks : list string) : Prop :=
  StronglySorted (fun a b => String.ltb a b = true) ks.

Definition pair_eq_dec (p q : string * string) : {p = q} + {p <> q}.
Proof. decide equality; apply string_dec. Defined.

(** How many times a pair of tags is visited. *)
Definition occurrences (p : string * string) (ps : list (string * string)) : Z :=
  Z.of_nat (count_occ pair_eq_dec ps p).

(** How many tag lists hold both tags. *)
Definition lists_with_both (a b : string) (hashtag_lists : list (list string)) : Z :=
  Z.of_nat (length (filter (fun tags => mem a tags && mem b tags) hashtag_lists)).

(** How many times a tag is one of the two tags of a visited pair. *)
Definition memberships (a : string) (ps : list (string * string)) : Z :=
  total (map (fun p => ind (String.eqb a (fst p)) + ind (String.eqb a (snd p))) ps).


(** The tags that stand beside an occurrence of [a] in its list, over every
    occurrence of [a] in every list. *)
Definition neighbours (a : string) (hashtag_lists : list (list string)) : Z :=
  total
    (map (fun tags =>
            Z.of_nat (count_occ string_dec tags a) * (Z.of_nat (length tags) - 1))
       hashtag_lists).

(** A row label for which [calculate_pmi] asks [marginal_probs] for an
    entry it does not have: the label is no column label, and a score of
    its row is to be written. *)
Definition missing (m : DataFrame Z) (tag1 : string) : bool :=
  negb (mem tag1 (columns m)) && existsb (writes m tag1) (columns m).

(** A frame with a row label that is no column label. *)
Definition example_not_square : DataFrame Z :=
  mkDataFrame ["a"; "x"] ["a"; "b"] (fun _ _ => 1).

(** The pairs of positions of the lists that hold [a] at one position and
    [b] at the other. *)
Definition position_pairs (a b : string) (hashtag_lists : list (list string)) : Z :=
  total
    (map (fun tags =>
            Z.of_nat (count_occ string_dec tags a)
            * (Z.of_nat (count_occ string_dec tags b) - ind (String.eqb a b)))
       hashtag_lists).

(** The row of the ranking for a pair of tags. *)
Definition row_of (pmi_matrix : DataFrame float) (pair : string * string)
  : Collocation :=
  (fst pair, snd pair, cell pmi_matrix (fst pair) (snd pair)).

(** The rows [get_top_collocations] makes for one row label: the inner loop
    of its enumeration over the column labels [cols]. *)
Definition rows_from (pmi_matrix : DataFrame float) (tag1 : string)
    (cols : list string) : list Collocation :=
  flat_map
    (fun tag2 =>
       if String.ltb tag1 tag2
       then [(tag1, tag2, cell pmi_matrix tag1 tag2)]
       else [])
    cols.

(** A PMI matrix over three tags with three different scores. *)
Definition example_scores : DataFrame float :=
  mkDataFrame ["a"; "b"; "c"] ["a"; "b"; "c"]
    (fun r c =>
       if String.eqb r c then 0%float
       else if mem r ["a"; "b"] && mem c ["a"; "b"] then 1%float
       else if mem r ["a"; "c"] && mem c ["a"; "c"] then 2%float
       else 3%float).

(** ** Strings and their order *)

Lemma mem_In (k : string) (ks : list string) : mem k ks = true <-> In k ks.
Proof.
  unfold mem. rewrite existsb_exists. split.
  - intros [x [Hin Heq]]. apply String.eqb_eq in Heq. now subst.
  - intros Hin. exists k. split; [assumption | apply String.eqb_refl].
Qed.

Lemma string_leb_trans (s1 s2 s3 : string) :
  String.leb s1 s2 = true -> String.leb s2 s3 = true -> String.leb s1 s3 = true.
Proof.
  unfold String.leb. revert s2 s3.
  induction s1 as [| c1 s1 IH]; intros [| c2 s2] [| c3 s3]; simpl;
    try congruence; try reflexivity.
  unfold Ascii.compare.
  destruct (N.compare_spec (N_of_ascii c1) (N_of_ascii c2)) as [E12 | L12 | G12];
    destruct (N.compare_spec (N_of_ascii c2) (N_of_ascii c3)) as [E23 | L23 | G23];
    destruct (N.compare_spec (N_of_ascii c1) (N_of_ascii c3)) as [E13 | L13 | G13];
    try congruence; try lia; try reflexivity.
  apply IH.
Qed.

Lemma insert_sorted_perm (x : string) (xs : list string) :
  Permutation (x :: xs) (insert_sorted x xs).
Proof.
  induction xs as [| y rest IH]; simpl.
  - apply Permutation_refl.
  - destruct (String.leb x y).
    + apply Permutation_refl.
    + eapply perm_trans; [apply perm_swap | apply perm_skip, IH].
Qed.

Lemma sorted_perm (xs : list string) : Permutation xs (sorted xs).
Proof.
  induction xs as [| x rest IH]; simpl.
  - constructor.
  - eapply perm_trans; [apply perm_skip, IH | apply insert_sorted_perm].
Qed.

Lemma sorted_In (xs : list string) (x : string) : In x (sorted xs) <-> In x xs.
Proof.
  split; apply Permutation_in;
    [apply Permutation_sym |]; apply sorted_perm.
Qed.

Lemma sorted_NoDup (xs : list string) : NoDup xs -> NoDup (sorted xs).
Proof. apply Permutation_NoDup, sorted_perm. Qed.

Lemma insert_sorted_strongly (x : string) (xs : list string) :
  StronglySorted str_le xs -> StronglySorted str_le (insert_sorted x xs).
Proof.
  induction 1 as [| y rest Hrest IH Hy]; simpl.
  - repeat constructor.
  - destruct (String.leb x y) eqn:Hxy.
    + constructor; [constructor; assumption |].
      constructor; [exact Hxy |].
      eapply Forall_impl; [| exact Hy].
      intros z Hz. eapply string_leb_trans; eassumption.
    + constructor; [exact IH |].
      apply (Permutation_Forall (insert_sorted_perm x rest)).
      constructor; [| exact Hy].
      destruct (String.leb_total x y) as [H | H]; [congruence | exact H].
Qed.

Lemma sorted_strongly (xs : list string) : StronglySorted str_le (sorted xs).
Proof.
  induction xs as [| x rest IH]; simpl.
  - constructor.
  - apply insert_sorted_strongly, IH.
Qed.

(** A list has one sorted arrangement. *)
Lemma strongly_sorted_unique (l1 l2 : list string) :
  StronglySorted str_le l1 -> StronglySorted str_le l2 ->
  Permutation l1 l2 -> l1 = l2.
Proof.
  revert l2. induction l1 as [| x l1 IH]; intros l2 S1 S2 P.
  - apply Permutation_nil in P. now subst.
  - destruct l2 as [| y l2].
    + apply Permutation_sym, Permutation_nil in P. discriminate.
    + apply StronglySorted_inv in S1 as [S1 F1].
      apply StronglySorted_inv in S2 as [S2 F2].
      assert (x = y) as ->.
      { assert (In y (x :: l1)) as Hy
          by (eapply Permutation_in; [apply Permutation_sym, P | now left]).
        assert (In x (y :: l2)) as Hx
          by (eapply Permutation_in; [apply P | now left]).
        destruct Hy as [-> | Hy]; [reflexivity |].
        destruct Hx as [-> | Hx]; [reflexivity |].
        rewrite Forall_forall in F1, F2.
        apply String.leb_antisym; [apply F1, Hy | apply F2, Hx]. }
      f_equal. apply IH; try assumption.
      eapply Permutation_cons_inv, P.
Qed.

Lemma sorted_of_permutation (l1 l2 : list string) :
  Permutation l1 l2 -> sorted l1 = sorted l2.
Proof.
  intros P. apply strongly_sorted_unique; try apply sorted_strongly.
  eapply perm_trans; [apply Permutation_sym, sorted_perm |].
  eapply perm_trans; [exact P | apply sorted_perm].
Qed.

(** The vocabulary does not depend on the order in which the set is read. *)
Lemma unique_hashtags_order (f g : list string -> list string)
    (hashtag_lists : list (list string)) :
  set_order f -> set_order g ->
  unique_hashtags f hashtag_lists = unique_hashtags g hashtag_lists.
Proof.
  intros Hf Hg. unfold unique_hashtags. apply sorted_of_permutation.
  destruct (Hf (concat hashtag_lists)) as [Nf If].
  destruct (Hg (concat hashtag_lists)) as [Ng Ig].
  apply NoDup_Permutation; try assumption.
  intros x. rewrite If, Ig. reflexivity.
Qed.

Lemma unique_hashtags_In (f : list string -> list string)
    (hashtag_lists : list (list string)) (x : string) :
  set_order f ->
  (In x (unique_hashtags f hashtag_lists) <-> In x (concat hashtag_lists)).
Proof.
  intros Hf. unfold unique_hashtags. rewrite sorted_In.
  apply (Hf (concat hashtag_lists)).
Qed.

Lemma unique_hashtags_NoDup (f : list string -> list string)
    (hashtag_lists : list (list string)) :
  set_order f -> NoDup (unique_hashtags f hashtag_lists).
Proof.
  intros Hf. apply sorted_NoDup, (Hf (concat hashtag_lists)).
Qed.

(** ** The extractor *)

Lemma extract_loop (lower : string -> string) (data : list Post)
    (acc : list (list string)) :
  fold_left
    (fun all_post_hashtags post =>
       match hashtags post with
       | Some tags =>
           match map lower tags with
           | [] => all_post_hashtags
           | _ :: _ => all_post_hashtags ++ [map lower tags]
           end
       | None => all_post_hashtags
       end)
    data acc
  = acc ++ map (fun post => map lower (tags_of post)) (filter has_tags data).
Proof.
  revert acc. induction data as [| post data IH]; intros acc; simpl.
  - now rewrite app_nil_r.
  - rewrite IH. unfold has_tags.
    destruct (hashtags post) as [[| tag tags] |] eqn:E; simpl; try reflexivity.
    unfold tags_of at 2. rewrite E. now rewrite <- app_assoc.
Qed.

(** C7.  The extractor returns, in the order of the posts, the lower-cased
    tag list of every post that has a ['hashtags'] field with at least one
    tag; a post without the field and a post with an empty tag list
    contribute nothing, so no list it returns is empty; and no post makes it
    fail (it is a total function of the posts). *)
Theorem load_and_extract_hashtags_spec (lower : string -> string)
    (data : list Post) :
  load_and_extract_hashtags lower data
  = map (fun post => map lower (tags_of post)) (filter has_tags data)
  /\ Forall (fun tags => tags <> []) (load_and_extract_hashtags lower data).
Proof.
  unfold load_and_extract_hashtags. rewrite extract_loop. split; [reflexivity |].
  simpl. apply Forall_forall. intros tags Hin.
  apply in_map_iff in Hin as (post & <- & Hpost).
  apply filter_In in Hpost as [_ Hpost]. unfold has_tags, tags_of in *.
  destruct (hashtags post) as [[| tag tags] |]; discriminate.
Qed.

(** ** Sums *)

Lemma total_map_add {A : Type} (f g : A -> Z) (xs : list A) :
  total (map (fun x => f x + g x) xs) = total (map f xs) + total (map g xs).
Proof. induction xs as [| x xs IH]; simpl; lia. Qed.

Lemma total_map_ext {A : Type} (f g : A -> Z) (xs : list A) :
  (forall x, In x xs -> f x = g x) -> total (map f xs) = total (map g xs).
Proof.
  induction xs as [| x xs IH]; simpl; intros H; [reflexivity |].
  rewrite (H x) by now left. rewrite IH; [reflexivity |].
  intros y Hy. apply H. now right.
Qed.

Lemma total_map_scale {A : Type} (k : Z) (f : A -> Z) (xs : list A) :
  total (map (fun x => f x * k) xs) = total (map f xs) * k.
Proof. induction xs as [| x xs IH]; simpl; lia. Qed.

Lemma total_map_zero {A : Type} (xs : list A) :
  total (map (fun _ => 0) xs) = 0.
Proof. induction xs as [| x xs IH]; simpl; lia. Qed.

Lemma total_app (xs ys : list Z) : total (xs ++ ys) = total xs + total ys.
Proof. induction xs as [| x xs IH]; simpl; lia. Qed.

Lemma total_nonneg_zero {A : Type} (f : A -> Z) (xs : list A) :
  (forall x, In x xs -> 0 <= f x) -> total (map f xs) = 0 ->
  forall x, In x xs -> f x = 0.
Proof.
  induction xs as [| y xs IH]; simpl; intros Hpos Hsum x Hx; [contradiction |].
  assert (0 <= f y) by (apply Hpos; now left).
  assert (0 <= total (map f xs)).
  { clear - Hpos. induction xs as [| z xs IH]; simpl; [lia |].
    assert (0 <= f z) by (apply Hpos; right; now left).
    assert (0 <= total (map f xs)); [| lia].
    apply IH. intros w [Hw | Hw]; apply Hpos; [now left | right; now right]. }
  destruct Hx as [<- | Hx]; [lia |].
  apply IH; try assumption; [| lia].
  intros z Hz. apply Hpos. now right.
Qed.

(** A label occurs once among distinct labels. *)
Lemma total_ind_label (t : string) (ks : list string) :
  NoDup ks -> In t ks -> total (map (fun k => ind (String.eqb k t)) ks) = 1.
Proof.
  induction 1 as [| k ks Hk Hnd IH]; simpl; intros Hin; [contradiction |].
  destruct (String.eqb_spec k t) as [-> | Hne]; simpl.
  - rewrite (total_map_ext _ (fun _ => 0)), total_map_zero; [reflexivity |].
    intros x Hx. destruct (String.eqb_spec x t) as [-> | _];
      [contradiction | reflexivity].
  - destruct Hin as [-> | Hin]; [contradiction |]. now rewrite IH.
Qed.

Lemma ind_andb (b1 b2 : bool) : ind (b1 && b2) = ind b1 * ind b2.
Proof. now destruct b1, b2. Qed.

(** The grand total [m.sum().sum()] of a frame. *)
Lemma grand_total_hits (p : string * string) (ks : list string) :
  NoDup ks -> In (fst p) ks -> In (snd p) ks ->
  total (map (fun c => total (map (fun r => hits p r c) ks)) ks) = 2.
Proof.
  intros Hnd H1 H2. unfold hits.
  rewrite (total_map_ext _
             (fun c => ind (String.eqb c (snd p)) + ind (String.eqb c (fst p)))).
  - rewrite total_map_add, !total_ind_label by assumption. reflexivity.
  - intros c _. rewrite total_map_add.
    rewrite (total_map_ext (fun r => ind (_ && _))
               (fun r => ind (String.eqb r (fst p)) * ind (String.eqb c (snd p))))
      by (intros; apply ind_andb).
    rewrite (total_map_ext (fun r => ind (String.eqb r (snd p) && _))
               (fun r => ind (String.eqb r (snd p)) * ind (String.eqb c (fst p))))
      by (intros; apply ind_andb).
    rewrite !total_map_scale, !total_ind_label by assumption. lia.
Qed.

Lemma grand_total_pair_count (ps : list (string * string)) (ks : list string) :
  NoDup ks ->
  (forall p, In p ps -> In (fst p) ks /\ In (snd p) ks) ->
  total (map (fun c => total (map (fun r => pair_count ps r c) ks)) ks)
  = 2 * Z.of_nat (length ps).
Proof.
  intros Hnd. induction ps as [| p ps IH]; intros Hin.
  - unfold pair_count. simpl.
    rewrite (total_map_ext _ (fun _ => 0)), total_map_zero; [reflexivity |].
    intros c _. apply total_map_zero.
  - unfold pair_count in *. cbn [map total fold_right length].
    rewrite (total_map_ext _
               (fun c => total (map (fun r => hits p r c) ks)
                         + total (map (fun r => total (map (fun q => hits q r c) ps)) ks)))
      by (intros; apply total_map_add).
    rewrite total_map_add, grand_total_hits; try assumption;
      try (apply Hin; now left).
    unfold total in IH |- *. rewrite IH; [lia |].
    intros q Hq. apply Hin. now right.
Qed.

(** ** Pairs of positions *)

Lemma combinations2_In {A : Type} (xs : list A) (x y : A) :
  In (x, y) (combinations2 xs) -> In x xs /\ In y xs.
Proof.
  induction xs as [| z xs IH]; simpl; [contradiction |].
  rewrite in_app_iff, in_map_iff. intros [[w [E Hw]] | H].
  - inversion E; subst. auto.
  - destruct (IH H). auto.
Qed.

Lemma combinations2_distinct (xs : list string) (x y : string) :
  NoDup xs -> In (x, y) (combinations2 xs) -> x <> y.
Proof.
  induction 1 as [| z xs Hz Hnd IH]; simpl; [contradiction |].
  rewrite in_app_iff, in_map_iff. intros [[w [E Hw]] | H].
  - inversion E; subst. intros ->. contradiction.
  - now apply IH.
Qed.

Lemma combinations2_length {A : Type} (xs : list A) :
  Z.of_nat (length (combinations2 xs)) = choose2 (Z.of_nat (length xs)).
Proof.
  unfold choose2.
  assert (2 * Z.of_nat (length (combinations2 xs))
          = Z.of_nat (length xs) * (Z.of_nat (length xs) - 1)) as H.
  { induction xs as [| x xs IH]; [reflexivity |].
    cbn [combinations2 length]. rewrite length_app, length_map. nia. }
  rewrite <- H, Z.mul_comm. symmetry. apply Z.div_mul. lia.
Qed.

Lemma all_pairs_length (hashtag_lists : list (list string)) :
  Z.of_nat (length (all_pairs hashtag_lists))
  = total (map (fun tags => choose2 (Z.of_nat (length tags))) hashtag_lists).
Proof.
  unfold all_pairs. induction hashtag_lists as [| tags rest IH]; [reflexivity |].
  cbn [flat_map map total fold_right]. rewrite length_app, Nat2Z.inj_add.
  rewrite combinations2_length. unfold total in IH. lia.
Qed.

(** ** The co-occurrence builder *)

Lemma loc_Ok {V : Type} (df : DataFrame V) (r c : string) :
  In r (index df) -> In c (columns df) -> loc df r c = Ok (cell df r c).
Proof.
  intros Hr Hc. unfold loc.
  apply mem_In in Hr. apply mem_In in Hc. now rewrite Hr, Hc.
Qed.

Ltac case_labels :=
  repeat match goal with
         | |- context [String.eqb ?x ?y] => destruct (String.eqb_spec x y)
         end;
  subst; simpl; try congruence; try lia.

(** One pair of the inner loop: no exception when both tags label the rows
    and the columns, and the two cells of the pair gain one each. *)
Lemma count_pair_spec (m : DataFrame Z) (p : string * string) :
  In (fst p) (index m) -> In (snd p) (index m) ->
  In (fst p) (columns m) -> In (snd p) (columns m) ->
  exists m', count_pair m p = Ok m'
             /\ index m' = index m /\ columns m' = columns m
             /\ forall a b, cell m' a b = cell m a b + hits p a b.
Proof.
  destruct p as [tag1 tag2]. simpl. intros R1 R2 C1 C2.
  unfold loc_iadd. rewrite (loc_Ok m) by assumption. simpl.
  rewrite loc_Ok by assumption. simpl.
  eexists. split; [reflexivity |]. simpl. repeat split.
  intros a b. unfold hits, ind. simpl. case_labels.
Qed.

Lemma count_pairs_spec (ps : list (string * string)) (m : DataFrame Z)
    (ks : list string) :
  index m = ks -> columns m = ks ->
  (forall p, In p ps -> In (fst p) ks /\ In (snd p) ks) ->
  exists m', for_each count_pair ps m = Ok m'
             /\ index m' = ks /\ columns m' = ks
             /\ forall a b, cell m' a b = cell m a b + pair_count ps a b.
Proof.
  revert m. induction ps as [| p ps IH]; intros m Hi Hc Hin; simpl.
  - exists m. repeat split; try assumption. intros. unfold pair_count. simpl. lia.
  - destruct (Hin p (or_introl eq_refl)) as [H1 H2].
    destruct (count_pair_spec m p) as (m1 & E1 & I1 & C1 & V1);
      try (rewrite ?Hi, ?Hc; assumption).
    rewrite E1. simpl.
    destruct (IH m1) as (m2 & E2 & I2 & C2 & V2); try congruence.
    { intros q Hq. apply Hin. now right. }
    exists m2. repeat split; try assumption.
    intros a b. rewrite V2, V1. unfold pair_count. simpl. lia.
Qed.

Lemma count_lists_spec (hashtag_lists : list (list string)) (m : DataFrame Z)
    (ks : list string) :
  index m = ks -> columns m = ks ->
  (forall tag, In tag (concat hashtag_lists) -> In tag ks) ->
  exists m',
    for_each (fun m hashtags => for_each count_pair (combinations2 hashtags) m)
      hashtag_lists m = Ok m'
    /\ index m' = ks /\ columns m' = ks
    /\ forall a b, cell m' a b = cell m a b + pair_count (all_pairs hashtag_lists) a b.
Proof.
  revert m. induction hashtag_lists as [| tags rest IH]; intros m Hi Hc Hin; simpl.
  - exists m. repeat split; try assumption. intros. unfold pair_count. simpl. lia.
  - destruct (count_pairs_spec (combinations2 tags) m ks Hi Hc)
      as (m1 & E1 & I1 & C1 & V1).
    { intros [x y] Hp. apply combinations2_In in Hp as [Hx Hy].
      split; apply Hin; simpl; apply in_or_app; now left. }
    rewrite E1. simpl.
    destruct (IH m1 I1 C1) as (m2 & E2 & I2 & C2 & V2).
    { intros tag Ht. apply Hin. simpl. apply in_or_app. now right. }
    exists m2. repeat split; try assumption.
    intros a b. rewrite V2, V1. unfold pair_count, all_pairs. simpl.
    rewrite map_app, total_app. lia.
Qed.

(** The builder never raises, labels rows and columns with the vocabulary,
    and every cell counts the visits of its pair of tags. *)
Lemma calculate_cooccurrence_matrix_spec (list_of_set : list string -> list string)
    (hashtag_lists : list (list string)) :
  set_order list_of_set ->
  exists m,
    calculate_cooccurrence_matrix list_of_set hashtag_lists
    = Ok (m, unique_hashtags list_of_set hashtag_lists)
    /\ index m = unique_hashtags list_of_set hashtag_lists
    /\ columns m = unique_hashtags list_of_set hashtag_lists
    /\ forall a b, cell m a b = pair_count (all_pairs hashtag_lists) a b.
Proof.
  intros Hset. unfold calculate_cooccurrence_matrix.
  destruct (count_lists_spec hashtag_lists
              (full 0 (unique_hashtags list_of_set hashtag_lists)
                 (unique_hashtags list_of_set hashtag_lists))
              _ eq_refl eq_refl) as (m & E & I & C & V).
  { intros tag Ht. now apply unique_hashtags_In. }
  exists m. rewrite E. simpl. repeat split; assumption.
Qed.

Lemma all_pairs_In (hashtag_lists : list (list string)) (x y : string) :
  In (x, y) (all_pairs hashtag_lists) ->
  In x (concat hashtag_lists) /\ In y (concat hashtag_lists).
Proof.
  unfold all_pairs. rewrite in_flat_map. intros (tags & Ht & Hp).
  apply combinations2_In in Hp as [Hx Hy].
  split; apply in_concat; exists tags; auto.
Qed.

Lemma hits_sym (p : string * string) (a b : string) : hits p a b = hits p b a.
Proof.
  unfold hits.
  rewrite (andb_comm (String.eqb a (fst p))), (andb_comm (String.eqb a (snd p))).
  lia.
Qed.

Lemma pair_count_sym (ps : list (string * string)) (a b : string) :
  pair_count ps a b = pair_count ps b a.
Proof.
  unfold pair_count. apply total_map_ext. intros p _. apply hits_sym.
Qed.

Lemma pair_count_nonneg (ps : list (string * string)) (a b : string) :
  0 <= pair_count ps a b.
Proof.
  unfold pair_count. induction ps as [| p ps IH]; simpl; [lia |].
  assert (0 <= hits p a b); [| lia].
  unfold hits, ind.
  destruct (_ && _), (_ && _); lia.
Qed.

Lemma pair_count_diagonal (ps : list (string * string)) (a : string) :
  (forall p, In p ps -> fst p <> snd p) -> pair_count ps a a = 0.
Proof.
  unfold pair_count. intros H.
  rewrite (total_map_ext _ (fun _ => 0)), total_map_zero; [reflexivity |].
  intros [x y] Hp. apply H in Hp. simpl in Hp.
  unfold hits, ind. simpl. case_labels.
Qed.

Lemma pair_count_no_pairs (hashtag_lists : list (list string)) (a b : string) :
  all_pairs hashtag_lists = [] -> pair_count (all_pairs hashtag_lists) a b = 0.
Proof. intros ->. reflexivity. Qed.

(** ** Binary64 facts *)

Lemma float_mul_comm (x y : float) : (x * y)%float = (y * x)%float.
Proof.
  apply Prim2SF_inj. rewrite !FloatAxioms.mul_spec. unfold SF64mul, SFmul.
  destruct (Prim2SF x) as [sx | sx | | sx mx ex],
           (Prim2SF y) as [sy | sy | | sy my ey];
    try reflexivity; try (now rewrite xorb_comm).
  now rewrite xorb_comm, Pos.mul_comm, Z.add_comm.
Qed.

Lemma SFcompare_antisym (a b : spec_float) :
  SFcompare b a = option_map CompOpp (SFcompare a b).
Proof.
  destruct a as [sa | sa | | sa ma ea], b as [sb | sb | | sb mb eb]; simpl;
    try reflexivity;
    try (destruct sa; reflexivity); try (destruct sb; reflexivity);
    try (destruct sa, sb; reflexivity).
  destruct sa, sb; try reflexivity;
    rewrite (Z.compare_antisym ea eb), (ZC4 mb ma);
    destruct (ea ?= eb)%Z; simpl; try reflexivity;
    now rewrite CompOpp_involutive.
Qed.

Lemma SFcompare_None (a b : spec_float) :
  SFcompare a b = None -> a = S754_nan \/ b = S754_nan.
Proof.
  destruct a, b; simpl; try discriminate; auto.
Qed.

Lemma SFcompare_Eq_finite (s1 s2 : bool) (m1 m2 : positive) (e1 e2 : Z) :
  SFcompare (S754_finite s1 m1 e1) (S754_finite s2 m2 e2) = Some Eq ->
  s1 = s2 /\ m1 = m2 /\ e1 = e2.
Proof.
  simpl. destruct s1, s2; try discriminate;
    destruct (Z.compare_spec e1 e2) as [-> | _ | _]; try discriminate;
    intros H; injection H as H.
  - apply (f_equal CompOpp) in H. rewrite CompOpp_involutive in H. simpl in H.
    apply Pcompare_Eq_eq in H. auto.
  - apply Pcompare_Eq_eq in H. auto.
Qed.

Lemma SFcompare_Eq_trans (a b c : spec_float) :
  SFcompare a c = Some Eq -> SFcompare b c = Some Eq -> SFcompare a b = Some Eq.
Proof.
  destruct a as [sa | sa | | sa ma ea], b as [sb | sb | | sb mb eb],
           c as [sc | sc | | sc mc ec];
    try (simpl; discriminate); try (simpl; reflexivity);
    try (simpl; destruct sa; discriminate);
    try (simpl; destruct sb; discriminate);
    try (simpl; destruct sc; discriminate).
  - simpl. destruct sa, sb, sc; try discriminate; reflexivity.
  - intros H1 H2.
    apply SFcompare_Eq_finite in H1 as (-> & -> & ->).
    apply SFcompare_Eq_finite in H2 as (-> & -> & ->).
    simpl. rewrite Z.compare_refl, Pcompare_refl. now destruct sc.
Qed.

Lemma SFleb_key (a b : spec_float) :
  a <> S754_nan -> b <> S754_nan ->
  (SFleb a b = true <-> key_le (sf_key a) (sf_key b)).
Proof.
  intros Ha Hb. unfold SFleb.
  destruct a as [sa | sa | | sa ma ea], b as [sb | sb | | sb mb eb];
    try congruence; simpl;
    try (destruct sa); try (destruct sb); simpl;
    try (split; [intros _; lia | reflexivity]);
    try (split; [discriminate | lia]).
  - destruct (Z.compare_spec ea eb) as [-> | H | H]; simpl.
    + rewrite Pos.compare_cont_antisym. simpl.
      change (Pos.compare_cont Eq mb ma) with (mb ?= ma)%positive.
      destruct (Pos.compare_spec mb ma) as [-> | H' | H']; simpl;
        (split; [try discriminate; intros _ | try reflexivity]); lia.
    + split; [discriminate | lia].
    + split; [intros _; lia | reflexivity].
  - destruct (Z.compare_spec ea eb) as [-> | H | H]; simpl.
    + change (Pos.compare_cont Eq ma mb) with (ma ?= mb)%positive.
      destruct (Pos.compare_spec ma mb) as [-> | H' | H']; simpl;
        (split; [try discriminate; intros _ | try reflexivity]); lia.
    + split; [intros _; lia | reflexivity].
    + split; [discriminate | lia].
Qed.

Lemma key_le_trans (k1 k2 k3 : Z * Z * Z) :
  key_le k1 k2 -> key_le k2 k3 -> key_le k1 k3.
Proof.
  destruct k1 as [[a1 b1] c1], k2 as [[a2 b2] c2], k3 as [[a3 b3] c3].
  unfold key_le. lia.
Qed.

Lemma SFleb_not_nan (a b : spec_float) :
  SFleb a b = true -> a <> S754_nan /\ b <> S754_nan.
Proof.
  unfold SFleb. destruct a, b; simpl; try discriminate; split; discriminate.
Qed.

Lemma SFleb_trans (a b c : spec_float) :
  SFleb a b = true -> SFleb b c = true -> SFleb a c = true.
Proof.
  intros Hab Hbc.
  destruct (SFleb_not_nan _ _ Hab) as [Ha Hb].
  destruct (SFleb_not_nan _ _ Hbc) as [_ Hc].
  apply SFleb_key in Hab; try assumption.
  apply SFleb_key in Hbc; try assumption.
  apply SFleb_key; try assumption.
  eapply key_le_trans; eassumption.
Qed.

Lemma SFeqb_refl (a : spec_float) : a <> S754_nan -> SFeqb a a = true.
Proof.
  unfold SFeqb. destruct a as [s | s | | s m e]; simpl; try congruence;
    intros _; try (now destruct s).
  rewrite Z.compare_refl, Pcompare_refl. now destruct s.
Qed.

(** Of two keys one may stand before the other. *)
Lemma desc_ok_total (x y : float) : desc_ok x y = false -> desc_ok y x = true.
Proof.
  unfold desc_ok, is_nan.
  rewrite !FloatAxioms.eqb_spec, !FloatAxioms.leb_spec. unfold SFeqb, SFleb.
  rewrite (SFcompare_antisym (Prim2SF y) (Prim2SF x)).
  destruct (SFcompare (Prim2SF y) (Prim2SF x)) as [[| |] |] eqn:E; simpl;
    try (now rewrite orb_true_r); try discriminate.
  apply SFcompare_None in E as [E | E]; rewrite E; simpl;
    [discriminate | reflexivity].
Qed.

(** A key that may not stand before another differs from it. *)
Lemma desc_ok_same_key (k x y : float) :
  (x =? k)%float = true -> desc_ok x y = false -> (y =? k)%float = false.
Proof.
  unfold desc_ok, is_nan.
  rewrite !FloatAxioms.eqb_spec, !FloatAxioms.leb_spec. unfold SFeqb, SFleb.
  intros Hx Hxy.
  destruct (SFcompare (Prim2SF y) (Prim2SF k)) as [[| |] |] eqn:Ey;
    try reflexivity.
  destruct (SFcompare (Prim2SF x) (Prim2SF k)) as [[| |] |] eqn:Ex;
    try discriminate.
  rewrite (SFcompare_Eq_trans _ _ _ Ey Ex) in Hxy.
  now rewrite orb_true_r in Hxy.
Qed.

(** What may stand before a key may stand before what the key may stand
    before. *)
Lemma desc_ok_trans (x y z : float) :
  desc_ok x y = true -> desc_ok y z = true -> desc_ok x z = true.
Proof.
  unfold desc_ok, is_nan.
  rewrite !FloatAxioms.eqb_spec, !FloatAxioms.leb_spec. intros Hxy Hyz.
  destruct (SFeqb (Prim2SF z) (Prim2SF z)); [| reflexivity].
  simpl in *.
  destruct (SFleb_not_nan _ _ Hyz) as [_ Hy].
  rewrite (SFeqb_refl _ Hy) in Hxy. simpl in Hxy.
  eapply SFleb_trans; eassumption.
Qed.

Lemma sorted_descending (rows : list Collocation) :
  Sorted ordered rows -> descending rows.
Proof.
  apply Sorted_StronglySorted. intros r1 r2 r3. apply desc_ok_trans.
Qed.

(** ** Integers as binary64 numbers

    The conversion of an integer rounds its mantissa to 53 digits.  What is
    needed of it here is that an integer above zero stays above zero, also
    once halved: a total of zero means a sum of zero. *)

Lemma iter_pos_nat {A : Type} (f : A -> A) (n : positive) (x : A) :
  iter_pos f n x = Nat.iter (Pos.to_nat n) f x.
Proof.
  revert x. induction n as [n IH | n IH |]; intros x; cbn [iter_pos].
  - rewrite !IH, Pos2Nat.inj_xI, <- Nat.iter_add, <- Nat.iter_succ_r.
    f_equal. lia.
  - rewrite !IH, Pos2Nat.inj_xO, <- Nat.iter_add. f_equal. lia.
  - reflexivity.
Qed.

Lemma digits_pos (m : positive) : 1 <= digits m.
Proof. unfold digits. lia. Qed.

Lemma digits_xO (m : positive) : digits m~0 = digits m + 1.
Proof.
  unfold digits. simpl.
  change (PosDef.Pos.succ (digits2_pos m)) with (Pos.succ (digits2_pos m)). lia.
Qed.

Lemma digits_xI (m : positive) : digits m~1 = digits m + 1.
Proof.
  unfold digits. simpl.
  change (PosDef.Pos.succ (digits2_pos m)) with (Pos.succ (digits2_pos m)). lia.
Qed.

Lemma shr_steps (j : nat) (q : positive) (r s : bool) :
  Z.of_nat j < digits q ->
  exists q' r' s',
    Nat.iter j shr_1 (Build_shr_record (Z.pos q) r s)
    = Build_shr_record (Z.pos q') r' s'
    /\ digits q' = digits q - Z.of_nat j.
Proof.
  induction j as [| j IH]; intros Hj.
  - exists q, r, s. split; [reflexivity |]. simpl. lia.
  - destruct IH as (q' & r' & s' & E & D); [lia |].
    rewrite Nat.iter_succ, E.
    destruct q' as [q1 | q1 |].
    + do 3 eexists. split; [reflexivity |]. rewrite digits_xI in D. lia.
    + do 3 eexists. split; [reflexivity |]. rewrite digits_xO in D. lia.
    + change (digits 1) with 1 in D. lia.
Qed.

Lemma fexp_normal (k : Z) : -1021 <= k -> fexp prec emax k = k - 53.
Proof.
  intros H. unfold fexp, SpecFloat.emin, prec, emax.
  change (IntDef.Z.max (k - 53) (3 - 1024 - 53)) with (Z.max (k - 53) (-1074)).
  lia.
Qed.

Lemma shr_fexp_normal (m : positive) (e : Z) (l : location) :
  53 <= digits m -> -1074 <= e ->
  exists m' r s,
    shr_fexp prec emax (Z.pos m) e l
    = (Build_shr_record (Z.pos m') r s, e + (digits m - 53))
    /\ digits m' = 53.
Proof.
  intros Hd He. unfold shr_fexp. simpl Zdigits2. fold (digits m).
  rewrite fexp_normal by lia.
  replace (digits m + e - 53 - e) with (digits m - 53) by lia.
  assert (exists r s, shr_record_of_loc (Z.pos m) l = Build_shr_record (Z.pos m) r s)
    as (r & s & ->) by (destruct l as [| []]; simpl; eauto).
  destruct (digits m - 53) as [| k | k] eqn:Ek; try lia.
  - exists m, r, s. split; [simpl; f_equal; lia | lia].
  - simpl shr. rewrite iter_pos_nat.
    destruct (shr_steps (Pos.to_nat k) m r s) as (m' & r' & s' & E & D).
    { rewrite positive_nat_Z. lia. }
    exists m', r', s'. rewrite E. split; [reflexivity |].
    rewrite D, positive_nat_Z. lia.
Qed.

Lemma digits_succ (m : positive) : digits m <= digits (Pos.succ m).
Proof.
  induction m as [m IH | m IH |]; simpl Pos.succ;
    rewrite ?digits_xO, ?digits_xI; try lia.
Qed.

Lemma round_nearest_even_pos (m : positive) (l : location) :
  exists m', round_nearest_even (Z.pos m) l = Z.pos m' /\ digits m <= digits m'.
Proof.
  assert (Z.pos m + 1 = Z.pos (Pos.succ m)) as Hs by lia.
  destruct l as [| [| |]]; cbn [round_nearest_even];
    try (exists m; split; [reflexivity | lia]);
    try (destruct (Z.even (Z.pos m)); [exists m; split; [reflexivity | lia] |]);
    exists (Pos.succ m); (split; [exact Hs | apply digits_succ]).
Qed.

(** Rounding a mantissa of at least 53 digits never gives zero or NaN. *)
Lemma binary_round_aux_normal (s : bool) (m : positive) (e : Z) (l : location) :
  53 <= digits m -> -1074 <= e ->
  binary_round_aux prec emax s (Z.pos m) e l = S754_infinity s
  \/ exists m' e',
      binary_round_aux prec emax s (Z.pos m) e l = S754_finite s m' e'
      /\ digits m' = 53 /\ e <= e' /\ e' <= emax - prec.
Proof.
  intros Hd He. unfold binary_round_aux.
  destruct (shr_fexp_normal m e l Hd He) as (m1 & r1 & s1 & -> & D1).
  cbn [shr_m].
  destruct (round_nearest_even_pos m1 (loc_of_shr_record (Build_shr_record (Z.pos m1) r1 s1)))
    as (m2 & -> & D2).
  destruct (shr_fexp_normal m2 (e + (digits m - 53)) loc_Exact) as (m3 & r3 & s3 & -> & D3);
    try lia.
  cbn [shr_m].
  destruct (Z.leb_spec (e + (digits m - 53) + (digits m2 - 53)) (emax - prec));
    [right | now left].
  do 2 eexists. split; [reflexivity |]. repeat split; lia.
Qed.

Lemma digits_iter_xO (m k : positive) :
  digits (Pos.iter xO m k) = digits m + Z.pos k.
Proof.
  assert (forall n, digits (Nat.iter n xO m) = digits m + Z.of_nat n) as H.
  { induction n as [| n IH]; [simpl; lia |].
    rewrite Nat.iter_succ, digits_xO, IH. lia. }
  rewrite Pos2Nat.inj_iter.
  etransitivity; [exact (H (Pos.to_nat k)) | now rewrite positive_nat_Z].
Qed.

(** An integer above zero converts to a normal number or to infinity. *)
Lemma binary_round_integer (s : bool) (p : positive) :
  binary_round prec emax s p 0 = S754_infinity s
  \/ exists m e,
      binary_round prec emax s p 0 = S754_finite s m e
      /\ digits m = 53 /\ -52 <= e /\ e <= emax - prec.
Proof.
  unfold binary_round, shl_align. fold (digits p).
  rewrite fexp_normal by (pose proof (digits_pos p); lia).
  replace (digits p + 0 - 53 - 0) with (digits p - 53) by lia.
  pose proof (digits_pos p) as Hp.
  destruct (digits p - 53) as [| k | k] eqn:Ek.
  - destruct (binary_round_aux_normal s p 0 loc_Exact) as [-> | (m & e & -> & D & L & U)];
      try lia; [now left | right].
    exists m, e. repeat split; try assumption; lia.
  - destruct (binary_round_aux_normal s p 0 loc_Exact) as [-> | (m & e & -> & D & L & U)];
      try lia; [now left | right].
    exists m, e. repeat split; try assumption; lia.
  - destruct (binary_round_aux_normal s (Pos.iter xO p k) (digits p + 0 - 53) loc_Exact)
      as [-> | (m & e & -> & D & L & U)];
      try (rewrite ?digits_iter_xO; lia); [now left | right].
    exists m, e. repeat split; try assumption; lia.
Qed.

Lemma normal_valid (s : bool) (m : positive) (e : Z) :
  digits m = 53 -> -52 <= e -> e <= emax - prec ->
  valid_binary (S754_finite s m e) = true.
Proof.
  intros D L U. unfold SpecFloat.valid_binary, bounded, canonical_mantissa.
  fold (digits m). rewrite fexp_normal by lia.
  apply andb_true_intro. split; [apply Z.eqb_eq | apply Z.leb_le]; lia.
Qed.

Lemma Prim2SF_float_of_Z (p : positive) :
  Prim2SF (float_of_Z (Z.pos p)) = binary_round prec emax false p 0.
Proof.
  unfold float_of_Z. cbn [binary_normalize]. apply Prim2SF_SF2Prim.
  destruct (binary_round_integer false p) as [-> | (m & e & -> & D & L & U)];
    [reflexivity | now apply normal_valid].
Qed.

Lemma Prim2SF_two : Prim2SF 2%float = S754_finite false 4503599627370496 (-51).
Proof. reflexivity. Qed.

(** Half a normal number of exponent at least -52 is not zero. *)
Lemma half_normal (m : positive) (e : Z) :
  digits m = 53 -> -52 <= e ->
  SF64div (S754_finite false m e) (Prim2SF 2%float) = S754_infinity false
  \/ exists m' e',
      SF64div (S754_finite false m e) (Prim2SF 2%float) = S754_finite false m' e'.
Proof.
  intros D L. rewrite Prim2SF_two. unfold SF64div, SFdiv.
  assert (SFdiv_core_binary prec emax (Z.pos m) e 4503599627370496 (-51)
          = (Z.pos m~0, e - 2, loc_Exact)) as ->.
  { unfold SFdiv_core_binary. simpl Zdigits2. fold (digits m). rewrite D.
    change (Z.pos (digits2_pos 4503599627370496)) with 53.
    rewrite fexp_normal by lia.
    change (IntDef.Z.min ?a ?b) with (Z.min a b).
    replace (Z.min (53 + e - (53 + -51) - 53) (e - -51)) with (e - 2) by lia.
    replace (e - -51 - (e - 2)) with 53 by lia.
    cbv iota. rewrite Z.shiftl_mul_pow2 by lia.
    pose proof (Z_div_mod (Z.pos m * 2 ^ 53) 4503599627370496 eq_refl) as H.
    destruct (Z.div_eucl (Z.pos m * 2 ^ 53) 4503599627370496) as [q r].
    change (2 ^ 53) with 9007199254740992 in H.
    destruct H as [Hq Hr].
    assert (r = 0) as -> by lia. assert (q = Z.pos m~0) as -> by lia.
    reflexivity. }
  cbn [xorb].
  destruct (binary_round_aux_normal false m~0 (e - 2) loc_Exact)
    as [-> | (m' & e' & -> & _)]; try (rewrite ?digits_xO; lia);
    [now left | right; eauto].
Qed.

(** Half the binary64 value of an integer above zero is not zero. *)
Lemma half_float_of_Z_nonzero (z : Z) :
  0 < z -> (float_of_Z z / 2 =? 0)%float = false.
Proof.
  intros Hz. destruct z as [| p | p]; try lia.
  rewrite FloatAxioms.eqb_spec, FloatAxioms.div_spec, Prim2SF_float_of_Z.
  change (Prim2SF 0%float) with (S754_zero false).
  destruct (binary_round_integer false p) as [-> | (m & e & -> & D & L & U)].
  - reflexivity.
  - destruct (half_normal m e D L) as [-> | (m' & e' & ->)]; reflexivity.
Qed.

(** ** The insertion sort *)

Section InsertionSort.

Variable before : float -> float -> bool.
Hypothesis before_ok : forall x y, before x y = true -> desc_ok x y = true.
Hypothesis after_ok : forall x y, before x y = false -> desc_ok y x = true.

Lemma insert_row_perm (x : Collocation) (rows : list Collocation) :
  Permutation (x :: rows) (insert_row before x rows).
Proof.
  induction rows as [| y rest IH]; simpl.
  - apply Permutation_refl.
  - destruct (before (pmi_of x) (pmi_of y)).
    + apply Permutation_refl.
    + eapply perm_trans; [apply perm_swap | apply perm_skip, IH].
Qed.

Lemma insertion_sort_perm (rows : list Collocation) :
  Permutation rows (insertion_sort before rows).
Proof.
  induction rows as [| x rest IH]; simpl.
  - constructor.
  - eapply perm_trans; [apply perm_skip, IH | apply insert_row_perm].
Qed.

Lemma insert_row_head (x y : Collocation) (rows : list Collocation) :
  HdRel ordered y rows -> ordered y x ->
  HdRel ordered y (insert_row before x rows).
Proof.
  intros Hy Hyx. destruct rows as [| z rest]; simpl.
  - now constructor.
  - destruct (before (pmi_of x) (pmi_of z)); constructor;
      [assumption | now inversion Hy].
Qed.

Lemma insert_row_sorted (x : Collocation) (rows : list Collocation) :
  Sorted ordered rows -> Sorted ordered (insert_row before x rows).
Proof.
  induction 1 as [| y rest Hrest IH Hy]; simpl.
  - repeat constructor.
  - destruct (before (pmi_of x) (pmi_of y)) eqn:E.
    + repeat constructor; try assumption. now apply before_ok.
    + constructor; [exact IH |].
      apply insert_row_head; [exact Hy | now apply after_ok].
Qed.

Lemma insertion_sort_sorted (rows : list Collocation) :
  Sorted ordered (insertion_sort before rows).
Proof.
  induction rows as [| x rest IH]; simpl.
  - constructor.
  - apply insert_row_sorted, IH.
Qed.

End InsertionSort.

Lemma sort_values_stable_sorts : sorts_descending sort_values_stable.
Proof.
  intros rows. split.
  - apply insertion_sort_perm.
  - apply sorted_descending, insertion_sort_sorted;
      [auto | apply desc_ok_total].
Qed.

Lemma insert_row_same_key (k : float) (x : Collocation) (rows : list Collocation) :
  filter (same_key k) (insert_row desc_ok x rows)
  = filter (same_key k) (x :: rows).
Proof.
  induction rows as [| y rest IH]; [reflexivity |].
  cbn [insert_row]. destruct (desc_ok (pmi_of x) (pmi_of y)) eqn:E;
    [reflexivity |].
  cbn [filter] in *. rewrite IH.
  destruct (same_key k x) eqn:Kx; [| reflexivity].
  unfold same_key in *. now rewrite (@desc_ok_same_key k _ _ Kx E).
Qed.

Lemma sort_values_stable_stable : stable sort_values_stable.
Proof.
  intros rows k. induction rows as [| x rest IH]; [reflexivity |].
  unfold sort_values_stable in *. cbn [insertion_sort fold_right].
  rewrite insert_row_same_key. cbn [filter].
  fold (insertion_sort desc_ok rest). now rewrite IH.
Qed.

Lemma last_seen_order : set_order last_seen.
Proof.
  intros xs. split; [apply NoDup_nodup | intros x; apply nodup_In].
Qed.

Lemma last_seen_reversed_order : set_order last_seen_reversed.
Proof.
  intros xs. unfold last_seen_reversed. split.
  - apply NoDup_rev, NoDup_nodup.
  - intros x. rewrite <- in_rev. apply nodup_In.
Qed.

(** ** The PMI calculator *)

Section PMI.

Variable log2 : float -> float.
Variable m : DataFrame Z.

Lemma pmi_cell_spec (tag1 tag2 : string) (p : DataFrame float) :
  In tag1 (columns m) -> In tag2 (columns m) ->
  pmi_cell log2 m tag1 p tag2
  = Ok (if writes m tag1 tag2
        then set_loc p tag1 tag2 (pmi_score log2 m tag1 tag2)
        else p).
Proof.
  intros H1 H2. unfold pmi_cell, writes.
  destruct (String.eqb tag1 tag2); [reflexivity |]. simpl.
  destruct (0 <? joint_prob m tag1 tag2)%float; [| reflexivity].
  unfold getitem. simpl labels.
  apply mem_In in H1. apply mem_In in H2. now rewrite H1, H2.
Qed.

Lemma pmi_row_spec (tag1 : string) (cs : list string) (p : DataFrame float) :
  In tag1 (columns m) -> incl cs (columns m) ->
  exists p',
    for_each (pmi_cell log2 m tag1) cs p = Ok p'
    /\ index p' = index p /\ columns p' = columns p
    /\ forall a b,
        cell p' a b
        = if String.eqb a tag1 && mem b cs && writes m tag1 b
          then pmi_score log2 m tag1 b
          else cell p a b.
Proof.
  intros H1. revert p. induction cs as [| c cs IH]; intros p Hcs; simpl.
  - exists p. repeat split. intros a b. now rewrite andb_false_r.
  - rewrite pmi_cell_spec; [| assumption | apply Hcs; now left]. simpl.
    destruct (IH (if writes m tag1 c
                  then set_loc p tag1 c (pmi_score log2 m tag1 c) else p))
      as (p' & E & I & C & V).
    { intros x Hx. apply Hcs. now right. }
    exists p'. rewrite E. split; [reflexivity |].
    split; [rewrite I; now destruct (writes m tag1 c) |].
    split; [rewrite C; now destruct (writes m tag1 c) |].
    intros a b. rewrite V. cbn [mem existsb]. fold (mem b cs).
    destruct (writes m tag1 c) eqn:Wc; cbn [cell set_loc];
      destruct (String.eqb a tag1); simpl; try reflexivity;
      destruct (String.eqb_spec b c) as [E' | _]; simpl; try reflexivity;
      try (rewrite E', Wc; now destruct (mem c cs));
      rewrite E', Wc; now rewrite andb_false_r.
Qed.

Lemma pmi_rows_spec (rs : list string) (p : DataFrame float) :
  incl rs (columns m) ->
  exists p',
    for_each (fun p tag1 => for_each (pmi_cell log2 m tag1) (columns m) p) rs p
    = Ok p'
    /\ index p' = index p /\ columns p' = columns p
    /\ forall a b,
        cell p' a b
        = if mem a rs && mem b (columns m) && writes m a b
          then pmi_score log2 m a b
          else cell p a b.
Proof.
  revert p. induction rs as [| r rs IH]; intros p Hrs; simpl.
  - exists p. repeat split.
  - destruct (pmi_row_spec r (columns m) p) as (p1 & E1 & I1 & C1 & V1);
      [apply Hrs; now left | apply incl_refl |].
    rewrite E1. simpl.
    destruct (IH p1) as (p2 & E2 & I2 & C2 & V2).
    { intros x Hx. apply Hrs. now right. }
    exists p2. rewrite E2. repeat split; try congruence.
    intros a b. rewrite V2, V1.
    destruct (String.eqb_spec a r) as [-> | Ha]; simpl.
    + destruct (mem r rs); simpl; [| reflexivity].
      now destruct (mem b (columns m) && writes m r b).
    + reflexivity.
Qed.

(** Every write of [calculate_pmi] in one statement: no exception when the
    row labels are column labels too, and each cell is the score of its
    pair where the loop writes and the initial zero elsewhere. *)
Lemma calculate_pmi_spec :
  incl (index m) (columns m) ->
  exists p,
    calculate_pmi log2 m = Ok p
    /\ index p = index m /\ columns p = columns m
    /\ forall a b,
        cell p a b
        = if mem a (index m) && mem b (columns m) && writes m a b
          then pmi_score log2 m a b
          else 0%float.
Proof.
  intros H. unfold calculate_pmi.
  destruct (pmi_rows_spec (index m) (full 0%float (index m) (columns m)) H)
    as (p & E & I & C & V).
  exists p. repeat split; assumption.
Qed.

End PMI.

(** ** The ranker *)

Lemma firstn_In {A : Type} (n : nat) (xs : list A) (x : A) :
  In x (firstn n xs) -> In x xs.
Proof.
  intros H. rewrite <- (firstn_skipn n xs). apply in_or_app. now left.
Qed.

Lemma firstn_StronglySorted {A : Type} (R : A -> A -> Prop) (n : nat)
    (xs : list A) :
  StronglySorted R xs -> StronglySorted R (firstn n xs).
Proof.
  revert xs. induction n as [| n IH]; intros xs H; [constructor |].
  destruct H as [| x xs Hxs Hx]; [constructor |]. simpl.
  constructor; [now apply IH |].
  rewrite Forall_forall in *. intros y Hy. apply Hx.
  eapply firstn_In, Hy.
Qed.

Lemma head_prefix {A : Type} (rows : list A) (n : Z) :
  exists rest, rows = head rows n ++ rest.
Proof.
  unfold head. destruct (0 <=? n)%Z.
  - exists (skipn (Z.to_nat n) rows). symmetry. apply firstn_skipn.
  - exists (skipn (length rows - Z.to_nat (- n)) rows). symmetry.
    apply firstn_skipn.
Qed.

Lemma head_length {A : Type} (rows : list A) (n : Z) :
  0 <= n -> Z.of_nat (length (head rows n)) <= n.
Proof.
  intros Hn. unfold head.
  destruct (Z.leb_spec 0 n) as [_ | H]; [| lia].
  rewrite length_firstn. lia.
Qed.

Lemma head_all {A : Type} (rows : list A) (n : Z) :
  Z.of_nat (length rows) <= n -> head rows n = rows.
Proof.
  intros Hn. unfold head.
  destruct (Z.leb_spec 0 n) as [_ | H]; [| lia].
  apply firstn_all2. lia.
Qed.

Lemma head_StronglySorted {A : Type} (R : A -> A -> Prop) (rows : list A)
    (n : Z) :
  StronglySorted R rows -> StronglySorted R (head rows n).
Proof.
  intros H. unfold head. destruct (0 <=? n)%Z; now apply firstn_StronglySorted.
Qed.

Lemma StronglySorted_app_cross {A : Type} (R : A -> A -> Prop) (xs ys : list A) :
  StronglySorted R (xs ++ ys) ->
  forall x y, In x xs -> In y ys -> R x y.
Proof.
  induction xs as [| a xs IH]; intros S x y Hx Hy; [destruct Hx |].
  cbn [app] in S. apply StronglySorted_inv in S as [S F].
  destruct Hx as [<- | Hx].
  - rewrite Forall_forall in F. apply F, in_or_app. now right.
  - now apply IH.
Qed.

Lemma head_length_exact {A : Type} (rows : list A) (n : Z) :
  Z.of_nat (length (head rows n))
  = if (0 <=? n)%Z then Z.min n (Z.of_nat (length rows))
    else Z.max 0 (Z.of_nat (length rows) + n).
Proof.
  unfold head. destruct (Z.leb_spec 0 n); rewrite length_firstn; lia.
Qed.

Lemma row_upper_triangle (p : DataFrame float) (r : string) (cs : list string) :
  flat_map
    (fun tag2 => if String.ltb r tag2 then [(r, tag2, cell p r tag2)] else [])
    cs
  = map (row_of p)
      (filter (fun pair => String.ltb (fst pair) (snd pair))
         (map (fun c => (r, c)) cs)).
Proof.
  induction cs as [| c cs IHc]; [reflexivity |].
  cbn [flat_map map filter fst snd]. rewrite IHc.
  now destruct (String.ltb r c).
Qed.

(** The rows the ranker collects are the rows of the upper triangle of the
    labels, in row-major order. *)
Lemma pmi_values_upper_triangle (p : DataFrame float) :
  pmi_values p = map (row_of p) (upper_triangle p).
Proof.
  unfold pmi_values, upper_triangle.
  generalize (index p) as rs. intros rs.
  induction rs as [| r rs IH]; [reflexivity |].
  cbn [flat_map list_prod].
  now rewrite filter_app, map_app, IH, row_upper_triangle.
Qed.

(** ** From one stage to the next *)

Lemma calculate_cooccurrence_matrix_order (f g : list string -> list string)
    (hashtag_lists : list (list string)) :
  set_order f -> set_order g ->
  calculate_cooccurrence_matrix f hashtag_lists
  = calculate_cooccurrence_matrix g hashtag_lists.
Proof.
  intros Hf Hg. unfold calculate_cooccurrence_matrix.
  now rewrite (unique_hashtags_order f g hashtag_lists Hf Hg).
Qed.

Lemma joint_prob_sym (m : DataFrame Z) (a b : string) :
  cell m a b = cell m b a -> joint_prob m a b = joint_prob m b a.
Proof. unfold joint_prob. now intros ->. Qed.

Lemma writes_sym (m : DataFrame Z) (a b : string) :
  cell m a b = cell m b a -> writes m a b = writes m b a.
Proof.
  intros H. unfold writes. now rewrite (joint_prob_sym m a b H), String.eqb_sym.
Qed.

Lemma pmi_score_sym (log2 : float -> float) (m : DataFrame Z) (a b : string) :
  cell m a b = cell m b a -> pmi_score log2 m a b = pmi_score log2 m b a.
Proof.
  intros H. unfold pmi_score.
  now rewrite (joint_prob_sym m a b H), float_mul_comm.
Qed.

(** The builder followed by the calculator: neither raises. *)
Lemma matrices_spec (list_of_set : list string -> list string)
    (log2 : float -> float) (hashtag_lists : list (list string)) :
  set_order list_of_set ->
  exists m p,
    calculate_cooccurrence_matrix list_of_set hashtag_lists
    = Ok (m, unique_hashtags list_of_set hashtag_lists)
    /\ calculate_pmi log2 m = Ok p
    /\ index m = unique_hashtags list_of_set hashtag_lists
    /\ columns m = unique_hashtags list_of_set hashtag_lists
    /\ index p = index m /\ columns p = columns m
    /\ (forall a b, cell m a b = pair_count (all_pairs hashtag_lists) a b)
    /\ (forall a b,
          cell p a b
          = if mem a (index m) && mem b (columns m) && writes m a b
            then pmi_score log2 m a b
            else 0%float).
Proof.
  intros Hset.
  destruct (calculate_cooccurrence_matrix_spec list_of_set hashtag_lists Hset)
    as (m & E & I & C & V).
  destruct (calculate_pmi_spec log2 m) as (p & Ep & Ip & Cp & Vp).
  { rewrite I, C. apply incl_refl. }
  exists m, p. repeat split; assumption.
Qed.

(** What the builder returns is a co-occurrence matrix. *)
Lemma calculate_cooccurrence_matrix_frame (list_of_set : list string -> list string)
    (hashtag_lists : list (list string)) :
  set_order list_of_set ->
  exists m,
    calculate_cooccurrence_matrix list_of_set hashtag_lists
    = Ok (m, unique_hashtags list_of_set hashtag_lists)
    /\ cooccurrence_frame m.
Proof.
  intros Hset.
  destruct (calculate_cooccurrence_matrix_spec list_of_set hashtag_lists Hset)
    as (m & E & I & C & V).
  exists m. split; [exact E |]. repeat split.
  - rewrite I. now apply unique_hashtags_NoDup.
  - congruence.
  - intros r c _ _. rewrite V. apply pair_count_nonneg.
Qed.

Lemma example_matrix_frame : cooccurrence_frame example_matrix.
Proof.
  repeat split.
  - repeat constructor; simpl; intuition discriminate.
  - intros r c _ _. apply pair_count_nonneg.
Qed.

(** ** Symmetry and the diagonal *)

(** C5.  For every sequence of tag lists the builder and the calculator
    return matrices (they do not raise), and both are symmetric: the
    co-occurrence count of [(a, b)] is that of [(b, a)], and the PMI score of
    [(a, b)] is that of [(b, a)], for all tags [a] and [b]. *)
Theorem matrices_symmetric (list_of_set : list string -> list string)
    (log2 : float -> float) (hashtag_lists : list (list string)) :
  set_order list_of_set ->
  exists m p,
    calculate_cooccurrence_matrix list_of_set hashtag_lists
    = Ok (m, unique_hashtags list_of_set hashtag_lists)
    /\ calculate_pmi log2 m = Ok p
    /\ forall a b, cell m a b = cell m b a /\ cell p a b = cell p b a.
Proof.
  intros Hset.
  destruct (matrices_spec list_of_set log2 hashtag_lists Hset)
    as (m & p & E & Ep & I & C & _ & _ & V & Vp).
  exists m, p. split; [exact E |]. split; [exact Ep |].
  assert (forall a b, cell m a b = cell m b a) as Hsym
    by (intros a b; rewrite !V; apply pair_count_sym).
  intros a b. split; [apply Hsym |].
  rewrite !Vp, (writes_sym m a b (Hsym a b)),
    (pmi_score_sym log2 m a b (Hsym a b)).
  rewrite I, C. now rewrite (andb_comm (mem a _)).
Qed.

Lemma matrices_symmetric_witness :
  exists m p,
    calculate_cooccurrence_matrix last_seen example_lists
    = Ok (m, unique_hashtags last_seen example_lists)
    /\ calculate_pmi log2_interp m = Ok p
    /\ forall a b, cell m a b = cell m b a /\ cell p a b = cell p b a.
Proof.
  exact (matrices_symmetric last_seen log2_interp example_lists last_seen_order).
Defined.

(** C2, as the code has it.  The PMI matrix has a zero diagonal for every
    sequence of tag lists, and the co-occurrence matrix has a zero diagonal
    for every sequence of tag lists none of which repeats a tag. *)
Theorem diagonal_zero (list_of_set : list string -> list string)
    (log2 : float -> float) (hashtag_lists : list (list string)) :
  set_order list_of_set ->
  exists m p,
    calculate_cooccurrence_matrix list_of_set hashtag_lists
    = Ok (m, unique_hashtags list_of_set hashtag_lists)
    /\ calculate_pmi log2 m = Ok p
    /\ (forall a, cell p a a = 0%float)
    /\ (Forall (@NoDup string) hashtag_lists -> forall a, cell m a a = 0).
Proof.
  intros Hset.
  destruct (matrices_spec list_of_set log2 hashtag_lists Hset)
    as (m & p & E & Ep & _ & _ & _ & _ & V & Vp).
  exists m, p. split; [exact E |]. split; [exact Ep |]. split.
  - intros a. rewrite Vp. unfold writes. rewrite String.eqb_refl. simpl.
    now rewrite andb_false_r.
  - intros Hnd a. rewrite V. apply pair_count_diagonal.
    intros [x y] Hp. unfold all_pairs in Hp. apply in_flat_map in Hp.
    destruct Hp as (tags & Ht & Hp). simpl.
    rewrite Forall_forall in Hnd.
    exact (combinations2_distinct tags x y (Hnd tags Ht) Hp).
Qed.

Lemma diagonal_zero_witness :
  exists m p,
    calculate_cooccurrence_matrix last_seen example_lists
    = Ok (m, unique_hashtags last_seen example_lists)
    /\ calculate_pmi log2_interp m = Ok p
    /\ (forall a, cell p a a = 0%float)
    /\ (Forall (@NoDup string) example_lists -> forall a, cell m a a = 0).
Proof.
  exact (diagonal_zero last_seen log2_interp example_lists last_seen_order).
Defined.

(** C2 fails as stated: a tag list that holds the tag ["a"] twice has the
    pair of positions [("a", "a")], and both increments of that pair land on
    the diagonal cell. *)
Lemma diagonal_written_counterexample :
  exists m,
    calculate_cooccurrence_matrix last_seen [["a"; "a"]] = Ok (m, ["a"])
    /\ cell m "a" "a" = 2.
Proof.
  eexists. split; [vm_compute; reflexivity |]. reflexivity.
Qed.

(** ** Count conservation *)

(** C6.  The entries of the co-occurrence matrix add up to twice the number
    of pairs of positions of the tag lists, a list of [k] tags having
    [k * (k - 1) / 2] of them. *)
Theorem count_conservation (list_of_set : list string -> list string)
    (hashtag_lists : list (list string)) :
  set_order list_of_set ->
  exists m,
    calculate_cooccurrence_matrix list_of_set hashtag_lists
    = Ok (m, unique_hashtags list_of_set hashtag_lists)
    /\ series_sum (df_sum m)
       = 2 * total (map (fun tags => choose2 (Z.of_nat (length tags))) hashtag_lists).
Proof.
  intros Hset.
  destruct (calculate_cooccurrence_matrix_spec list_of_set hashtag_lists Hset)
    as (m & E & I & C & V).
  exists m. split; [exact E |].
  unfold series_sum, df_sum. cbn [labels item]. rewrite I, C.
  rewrite (total_map_ext _
             (fun c => total (map (fun r => pair_count (all_pairs hashtag_lists) r c)
                                (unique_hashtags list_of_set hashtag_lists)))).
  - rewrite grand_total_pair_count, all_pairs_length; [reflexivity | |].
    + now apply unique_hashtags_NoDup.
    + intros [x y] Hp. apply all_pairs_In in Hp as [Hx Hy]. simpl.
      split; now apply unique_hashtags_In.
  - intros c _. apply total_map_ext. intros r _. apply V.
Qed.

Lemma count_conservation_witness :
  exists m,
    calculate_cooccurrence_matrix last_seen [["a"; "b"; "a"]; ["c"]; ["b"; "c"]]
    = Ok (m, unique_hashtags last_seen [["a"; "b"; "a"]; ["c"]; ["b"; "c"]])
    /\ series_sum (df_sum m)
       = 2 * total (map (fun tags => choose2 (Z.of_nat (length tags)))
                      [["a"; "b"; "a"]; ["c"]; ["b"; "c"]]).
Proof.
  exact (count_conservation last_seen [["a"; "b"; "a"]; ["c"]; ["b"; "c"]]
           last_seen_order).
Defined.

(** ** The PMI of a pair *)








Ltac fits_in_64_bits :=
  unfold int64; vm_compute; split; [discriminate | reflexivity].




(** ** A total of zero *)

Lemma total_map_nonneg {A : Type} (f : A -> Z) (xs : list A) :
  (forall x, In x xs -> 0 <= f x) -> 0 <= total (map f xs).
Proof.
  induction xs as [| x xs IH]; simpl; intros H; [lia |].
  assert (0 <= f x) by (apply H; now left).
  assert (0 <= total (map f xs)); [| unfold total in *; lia].
  apply IH. intros y Hy. apply H. now right.
Qed.

(** Zero divided by a total of zero is NaN, and NaN is not above zero. *)
Lemma zero_joint_prob_not_positive :
  (0 <? float_of_Z 0 / (float_of_Z 0 / 2))%float = false.
Proof. reflexivity. Qed.

Lemma zero_total_cells (m : DataFrame Z) :
  cooccurrence_frame m ->
  series_sum (df_sum m) = 0 ->
  forall r c, In r (index m) -> In c (index m) -> cell m r c = 0.
Proof.
  unfold series_sum, df_sum. cbn [labels item].
  intros (_ & Hsq & Hpos) Hsum r c Hr Hc. rewrite Hsq in Hsum.
  assert (total (map (fun r => cell m r c) (index m)) = 0) as Hcol.
  { apply (total_nonneg_zero
             (fun c => total (map (fun r => cell m r c) (index m)))
             (index m)); try assumption.
    intros c' Hc'. apply total_map_nonneg. intros r' Hr'. now apply Hpos. }
  apply (total_nonneg_zero (fun r => cell m r c) (index m)); try assumption.
  intros r' Hr'. now apply Hpos.
Qed.

Lemma calculate_pmi_zero_total (log2 : float -> float) (m : DataFrame Z) :
  cooccurrence_frame m ->
  series_sum (df_sum m) = 0 ->
  total_cooccurrences m = 0%float
  /\ exists p,
      calculate_pmi log2 m = Ok p
      /\ index p = index m /\ columns p = columns m
      /\ forall a b, cell p a b = 0%float.
Proof.
  intros Hm Hsum. pose proof Hm as (_ & Hsq & _). split.
  - unfold total_cooccurrences. rewrite Hsum. reflexivity.
  - destruct (calculate_pmi_spec log2 m) as (p & E & I & C & V).
    { rewrite Hsq. apply incl_refl. }
    exists p. repeat split; try assumption.
    intros a b. rewrite V, Hsq.
    destruct (mem a (index m)) eqn:Ha; [| reflexivity].
    destruct (mem b (index m)) eqn:Hb; [| reflexivity].
    apply mem_In in Ha. apply mem_In in Hb.
    unfold writes, joint_prob, total_cooccurrences.
    rewrite (zero_total_cells m Hm Hsum a b Ha Hb), Hsum.
    rewrite zero_joint_prob_not_positive. now rewrite andb_false_r.
Qed.

Lemma no_pairs (hashtag_lists : list (list string)) :
  (forall tags, In tags hashtag_lists -> (length tags <= 1)%nat) ->
  all_pairs hashtag_lists = [].
Proof.
  unfold all_pairs. induction hashtag_lists as [| tags rest IH]; intros H;
    [reflexivity |].
  simpl. rewrite IH by (intros t Ht; apply H; now right).
  assert (length tags <= 1)%nat as Hl by (apply H; now left).
  destruct tags as [| x [| y tags]]; simpl in *; try reflexivity. lia.
Qed.

Lemma set_order_nil (list_of_set : list string -> list string) :
  set_order list_of_set -> list_of_set [] = [].
Proof.
  intros H. destruct (H []) as [_ Hin].
  destruct (list_of_set []) as [| x xs]; [reflexivity |].
  exfalso. apply (Hin x). now left.
Qed.

Lemma sorts_descending_nil (sort_values : list Collocation -> list Collocation) :
  sorts_descending sort_values -> sort_values [] = [].
Proof.
  intros H. destruct (H []) as [P _]. now apply Permutation_nil.
Qed.

(** A total of zero is a sum of zero. *)
Lemma zero_total_sum (m : DataFrame Z) :
  cooccurrence_frame m ->
  (total_cooccurrences m =? 0)%float = true ->
  series_sum (df_sum m) = 0.
Proof.
  intros (_ & Hsq & Hpos) Hzero.
  assert (0 <= series_sum (df_sum m)) as Hsum.
  { unfold series_sum, df_sum. cbn [labels item]. rewrite Hsq.
    apply total_map_nonneg. intros c Hc.
    apply total_map_nonneg. intros r Hr. now apply Hpos. }
  destruct (Z.eq_dec (series_sum (df_sum m)) 0) as [E | E]; [exact E |].
  unfold total_cooccurrences in Hzero.
  rewrite half_float_of_Z_nonzero in Hzero by lia. discriminate.
Qed.

(** C4.  A total of zero is harmless.  (1) For every co-occurrence matrix
    with sums that fit in 64 bits whose [total_cooccurrences] is zero,
    [calculate_pmi] returns an
    all-zero matrix with the labels of its argument instead of raising:
    every count is zero then, zero divided by the zero total is NaN, which
    is not above zero, so no cell is written.  (2) Tag lists that hold at
    most one tag each (none at all, or single-tag posts only) give such a
    matrix.  (3) On no post at all the analysis returns an empty vocabulary,
    empty matrices and an empty ranking, without raising. *)
Theorem zero_total_is_harmless (lower : string -> string)
    (list_of_set : list string -> list string) (log2 : float -> float)
    (sort_values : list Collocation -> list Collocation) :
  set_order list_of_set -> sorts_descending sort_values ->
  (forall m,
      cooccurrence_frame m -> sums_fit m ->
      (total_cooccurrences m =? 0)%float = true ->
      exists p,
        calculate_pmi log2 m = Ok p
        /\ index p = index m /\ columns p = columns m
        /\ forall a b, cell p a b = 0%float)
  /\ (forall hashtag_lists,
        (forall tags, In tags hashtag_lists -> (length tags <= 1)%nat) ->
        exists m p,
          calculate_cooccurrence_matrix list_of_set hashtag_lists
          = Ok (m, unique_hashtags list_of_set hashtag_lists)
          /\ total_cooccurrences m = 0%float
          /\ calculate_pmi log2 m = Ok p
          /\ forall a b, cell p a b = 0%float)
  /\ unique_hashtags list_of_set [] = []
  /\ analyze_hashtag_collocations lower list_of_set log2 sort_values []
     = Ok (mkAnalysis (full 0 [] []) (full 0%float [] []) []).
Proof.
  intros Hset Hsort. split; [| split; [| split]].
  - intros m Hm _ Hzero.
    now apply calculate_pmi_zero_total; [| apply zero_total_sum].
  - intros hashtag_lists Hshort.
    destruct (calculate_cooccurrence_matrix_spec list_of_set hashtag_lists Hset)
      as (m & E & I & C & V).
    assert (forall a b, cell m a b = 0) as Hzero.
    { intros a b. rewrite V. apply pair_count_no_pairs. now apply no_pairs. }
    destruct (calculate_pmi_zero_total log2 m) as (Ht & p & Ep & _ & _ & Vp).
    + repeat split; [rewrite I; now apply unique_hashtags_NoDup | congruence |].
      intros r c _ _. rewrite Hzero. lia.
    + unfold series_sum, df_sum. cbn [labels item].
      rewrite (total_map_ext _ (fun _ => 0)), total_map_zero; [reflexivity |].
      intros c _.
      rewrite (total_map_ext _ (fun _ => 0)), total_map_zero; [reflexivity |].
      intros r _. apply Hzero.
    + exists m, p. repeat split; assumption.
  - unfold unique_hashtags. simpl. now rewrite set_order_nil.
  - unfold analyze_hashtag_collocations, calculate_cooccurrence_matrix,
      unique_hashtags.
    simpl. rewrite set_order_nil by assumption. simpl.
    unfold get_top_collocations, pmi_values. simpl.
    now rewrite sorts_descending_nil.
Qed.

Lemma zero_total_is_harmless_witness :
  (forall m,
      cooccurrence_frame m -> sums_fit m ->
      (total_cooccurrences m =? 0)%float = true ->
      exists p,
        calculate_pmi log2_interp m = Ok p
        /\ index p = index m /\ columns p = columns m
        /\ forall a b, cell p a b = 0%float)
  /\ (forall hashtag_lists,
        (forall tags, In tags hashtag_lists -> (length tags <= 1)%nat) ->
        exists m p,
          calculate_cooccurrence_matrix last_seen hashtag_lists
          = Ok (m, unique_hashtags last_seen hashtag_lists)
          /\ total_cooccurrences m = 0%float
          /\ calculate_pmi log2_interp m = Ok p
          /\ forall a b, cell p a b = 0%float)
  /\ unique_hashtags last_seen [] = []
  /\ analyze_hashtag_collocations lower_ascii last_seen log2_interp
       sort_values_stable []
     = Ok (mkAnalysis (full 0 [] []) (full 0%float [] []) []).
Proof.
  exact (zero_total_is_harmless lower_ascii last_seen log2_interp
           sort_values_stable last_seen_order sort_values_stable_sorts).
Defined.

(** ** Ranking *)

(** C9, as the code has it.  For every PMI matrix and every requested
    number [n] of rows that is not negative, the ranking has at most [n]
    rows, as many as the smaller of [n] and the number of pairs of the upper
    triangle; it is in descending order of PMI score; it holds rows of the
    pairs of the upper triangle, each with its score, and every row of such
    a pair that it leaves out may stand after each of its rows; when the
    upper triangle has no more than [n] pairs the ranking holds all of them;
    and a call that leaves [n] out asks for 10 rows.  Asking for more rows
    than there are pairs raises nothing. *)
Theorem ranking_correct (sort_values : list Collocation -> list Collocation)
    (pmi : DataFrame float) (n : Z) :
  sorts_descending sort_values -> unique_labels pmi -> 0 <= n ->
  Z.of_nat (length (get_top_collocations sort_values pmi (Some n))) <= n
  /\ Z.of_nat (length (get_top_collocations sort_values pmi (Some n)))
     = Z.min n (Z.of_nat (length (upper_triangle pmi)))
  /\ descending (get_top_collocations sort_values pmi (Some n))
  /\ (exists rest,
        Permutation (map (row_of pmi) (upper_triangle pmi))
          (get_top_collocations sort_values pmi (Some n) ++ rest)
        /\ forall row row',
            In row (get_top_collocations sort_values pmi (Some n)) ->
            In row' rest -> ordered row row')
  /\ (Z.of_nat (length (upper_triangle pmi)) <= n ->
      Permutation (map (row_of pmi) (upper_triangle pmi))
        (get_top_collocations sort_values pmi (Some n)))
  /\ get_top_collocations sort_values pmi None
     = get_top_collocations sort_values pmi (Some 10).
Proof.
  intros Hsort _ Hn. destruct (Hsort (pmi_values pmi)) as [P S].
  assert (length (upper_triangle pmi) = length (pmi_values pmi)) as L
    by (now rewrite pmi_values_upper_triangle, length_map).
  rewrite <- pmi_values_upper_triangle, L.
  change (get_top_collocations sort_values pmi (Some n))
    with (head (sort_values (pmi_values pmi)) n).
  assert (Z.of_nat (length (head (sort_values (pmi_values pmi)) n))
          = Z.min n (Z.of_nat (length (pmi_values pmi)))) as E.
  { rewrite head_length_exact, <- (Permutation_length P).
    destruct (Z.leb_spec 0 n); [reflexivity | lia]. }
  split; [lia |]. split; [exact E |].
  split; [now apply head_StronglySorted |]. split; [| split].
  - destruct (head_prefix (sort_values (pmi_values pmi)) n) as [rest R].
    exists rest. split; [now rewrite <- R |].
    apply StronglySorted_app_cross. now rewrite <- R.
  - intros Hfew. rewrite head_all; [exact P |].
    now rewrite <- (Permutation_length P).
  - reflexivity.
Qed.

Lemma example_scores_labels : unique_labels example_scores.
Proof.
  split; repeat constructor; simpl; intuition discriminate.
Qed.

Lemma ranking_correct_witness :
  get_top_collocations sort_values_stable example_scores (Some 2)
  = [("b", "c", 3%float); ("a", "c", 2%float)]
  /\ Z.of_nat (length (get_top_collocations sort_values_stable example_scores (Some 2)))
     = Z.min 2 (Z.of_nat (length (upper_triangle example_scores)))
  /\ (Z.of_nat (length (upper_triangle example_scores)) <= 5 ->
      Permutation (map (row_of example_scores) (upper_triangle example_scores))
        (get_top_collocations sort_values_stable example_scores (Some 5))).
Proof.
  split; [reflexivity |]. split.
  - apply (ranking_correct sort_values_stable example_scores 2);
      [exact sort_values_stable_sorts | exact example_scores_labels | lia].
  - apply (ranking_correct sort_values_stable example_scores 5);
      [exact sort_values_stable_sorts | exact example_scores_labels | lia].
Defined.

(** C9 fails as stated for a negative [n]: asked for -1 rows of a matrix
    with three pairs of different scores, the ranker returns the two pairs
    of highest score, which is more than -1 rows. *)
Lemma negative_n_counterexample :
  get_top_collocations sort_values_stable example_scores (Some (-1))
  = [("b", "c", 3%float); ("a", "c", 2%float)]
  /\ -1 < Z.of_nat (length (get_top_collocations sort_values_stable
                              example_scores (Some (-1)))).
Proof. split; [reflexivity | vm_compute; reflexivity]. Qed.

(** ** The whole analysis *)

(** C10.  The analysis is deterministic.  The one thing that changes from a
    run to the next is the order in which the built-in set of tags is read
    (it follows the string hash seed of the run); whatever that order is in
    two runs on the same posts, both return, and return the same
    co-occurrence matrix, the same PMI matrix and the same ranking. *)
Theorem analysis_deterministic (lower : string -> string)
    (log2 : float -> float) (sort_values : list Collocation -> list Collocation)
    (order1 order2 : list string -> list string) (data : list Post) :
  set_order order1 -> set_order order2 ->
  exists analysis,
    analyze_hashtag_collocations lower order1 log2 sort_values data = Ok analysis
    /\ analyze_hashtag_collocations lower order2 log2 sort_values data = Ok analysis.
Proof.
  intros H1 H2. unfold analyze_hashtag_collocations.
  rewrite (calculate_cooccurrence_matrix_order order2 order1 _ H2 H1).
  destruct (matrices_spec order1 log2 (load_and_extract_hashtags lower data) H1)
    as (m & p & E & Ep & _).
  rewrite E. simpl. rewrite Ep. simpl. eexists. split; reflexivity.
Qed.

Lemma analysis_deterministic_witness :
  exists analysis,
    analyze_hashtag_collocations lower_ascii last_seen log2_interp
      sort_values_stable example_posts = Ok analysis
    /\ analyze_hashtag_collocations lower_ascii last_seen_reversed log2_interp
         sort_values_stable example_posts = Ok analysis.
Proof.
  exact (analysis_deterministic lower_ascii log2_interp sort_values_stable
           last_seen last_seen_reversed example_posts
           last_seen_order last_seen_reversed_order).
Defined.

(** ** The worked example *)

Lemma filter_all {A : Type} (f : A -> bool) (xs : list A) :
  Forall (fun x => f x = true) xs -> filter f xs = xs.
Proof.
  induction 1 as [| x xs Hx _ IH]; simpl; [reflexivity |].
  now rewrite Hx, IH.
Qed.

(** C1, as the code has it.  On the tag lists [["a","b"]], [["a","b"]],
    [["a","c"]] the vocabulary is a, b, c; the co-occurrence counts are 2 for
    (a, b), 1 for (a, c) and 0 for (b, c); the total is 3; the marginal
    probabilities are 1, 2/3 and 1/3; the PMI scores of (a, b) and (a, c) are
    [log2 1 = 0] and that of (b, c) stays 0; and the ranking holds all three
    pairs of the upper triangle, (b, c) included, tied at 0 (in the order
    (a, b), (a, c), (b, c) when the sort is stable). *)
Theorem worked_example (list_of_set : list string -> list string)
    (log2 : float -> float)
    (sort_values : list Collocation -> list Collocation) :
  set_order list_of_set -> log2 1%float = 0%float ->
  sorts_descending sort_values ->
  exists m p,
    calculate_cooccurrence_matrix list_of_set example_lists
    = Ok (m, ["a"; "b"; "c"])
    /\ cell m "a" "b" = 2 /\ cell m "a" "c" = 1 /\ cell m "b" "c" = 0
    /\ total_cooccurrences m = 3%float
    /\ item (marginal_probs m) "a" = 1%float
    /\ item (marginal_probs m) "b" = (2 / 3)%float
    /\ item (marginal_probs m) "c" = (1 / 3)%float
    /\ calculate_pmi log2 m = Ok p
    /\ cell p "a" "b" = 0%float /\ cell p "a" "c" = 0%float
    /\ cell p "b" "c" = 0%float
    /\ Permutation example_ranking (get_top_collocations sort_values p None)
    /\ (stable sort_values ->
        get_top_collocations sort_values p None = example_ranking).
Proof.
  intros Hset Hlog Hsort.
  rewrite (calculate_cooccurrence_matrix_order list_of_set last_seen
             example_lists Hset last_seen_order).
  eexists. eexists.
  split; [vm_compute; reflexivity |].
  do 7 (split; [vm_compute; reflexivity |]).
  split; [vm_compute; reflexivity |].
  do 2 (split; [vm_compute; exact Hlog |]).
  split; [vm_compute; reflexivity |].
  unfold get_top_collocations.
  match goal with
  | |- context [sort_values ?rows] =>
      replace rows with example_ranking by (vm_compute; now rewrite Hlog)
  end.
  destruct (Hsort example_ranking) as [P _].
  rewrite head_all by (rewrite <- (Permutation_length P); vm_compute; discriminate).
  split; [exact P |].
  intros Hstable.
  rewrite <- (filter_all (same_key 0) (sort_values example_ranking)).
  - now rewrite Hstable.
  - apply (Permutation_Forall P). repeat constructor.
Qed.

Lemma worked_example_witness :
  exists m p,
    calculate_cooccurrence_matrix last_seen example_lists
    = Ok (m, ["a"; "b"; "c"])
    /\ cell m "a" "b" = 2 /\ cell m "a" "c" = 1 /\ cell m "b" "c" = 0
    /\ total_cooccurrences m = 3%float
    /\ item (marginal_probs m) "a" = 1%float
    /\ item (marginal_probs m) "b" = (2 / 3)%float
    /\ item (marginal_probs m) "c" = (1 / 3)%float
    /\ calculate_pmi log2_interp m = Ok p
    /\ cell p "a" "b" = 0%float /\ cell p "a" "c" = 0%float
    /\ cell p "b" "c" = 0%float
    /\ Permutation example_ranking
         (get_top_collocations sort_values_stable p None)
    /\ (stable sort_values_stable ->
        get_top_collocations sort_values_stable p None = example_ranking).
Proof.
  apply (worked_example last_seen log2_interp sort_values_stable).
  - exact last_seen_order.
  - reflexivity.
  - exact sort_values_stable_sorts.
Defined.

(** C1 fails as stated in its last part: the ranking of the worked example
    has three rows, and the pair (b, c) is one of them. *)
Lemma worked_example_counterexample :
  exists m p,
    calculate_cooccurrence_matrix last_seen example_lists
    = Ok (m, ["a"; "b"; "c"])
    /\ calculate_pmi log2_interp m = Ok p
    /\ get_top_collocations sort_values_stable p None
       = [("a", "b", 0%float); ("a", "c", 0%float); ("b", "c", 0%float)].
Proof.
  eexists. eexists.
  split; [vm_compute; reflexivity |].
  split; [vm_compute; reflexivity |].
  vm_compute. reflexivity.
Qed.

(** ** The model at work *)

(** Tags that differ in case only are one vocabulary entry. *)
Example case_normalization :
  load_and_extract_hashtags lower_ascii
    [mkPost (Some ["Climate"]); mkPost (Some ["climate"])]
  = [["climate"]; ["climate"]]
  /\ unique_hashtags last_seen [["climate"]; ["climate"]] = ["climate"].
Proof. split; reflexivity. Qed.

Example extraction_of_example_posts :
  load_and_extract_hashtags lower_ascii example_posts
  = [["care"; "hospice"]; ["care"; "hospice"; "family"]].
Proof. reflexivity. Qed.

(** A tag the frame does not have cannot be counted. *)
Example count_unknown_tag :
  count_pair (full 0 ["a"] ["a"]) ("a", "b") = Raise (KeyError "b").
Proof. reflexivity. Qed.

(** A negative [n] drops rows from the end. *)
Example head_negative :
  head [1; 2; 3] (-1) = [1; 2] /\ head [1; 2; 3] 5 = [1; 2; 3].
Proof. split; reflexivity. Qed.

(** The vocabulary of the worked example, whichever way the set is read. *)
Example example_vocabulary :
  unique_hashtags last_seen example_lists = ["a"; "b"; "c"]
  /\ unique_hashtags last_seen_reversed example_lists = ["a"; "b"; "c"].
Proof. split; reflexivity. Qed.

(** * Further properties of the script *)

(** ** The vocabulary *)

Lemma string_ltb_of_leb (a b : string) :
  String.leb a b = true -> a <> b -> String.ltb a b = true.
Proof.
  unfold String.leb, String.ltb. intros H Hne.
  destruct (String.compare a b) eqn:E; try reflexivity; try discriminate.
  apply String.compare_eq_iff in E. contradiction.
Qed.

Lemma string_ltb_irrefl (a : string) : String.ltb a a = false.
Proof.
  unfold String.ltb. pose proof (String.compare_antisym a a) as H.
  destruct (String.compare a a); try reflexivity. discriminate.
Qed.

Lemma string_ltb_asym (a b : string) :
  String.ltb a b = true -> String.ltb b a = false.
Proof.
  unfold String.ltb. rewrite (String.compare_antisym a b).
  destruct (String.compare b a); simpl; congruence.
Qed.

Lemma sorted_strictly (xs : list string) :
  NoDup xs -> strictly_ascending (sorted xs).
Proof.
  intros Hnd. apply sorted_NoDup in Hnd.
  pose proof (sorted_strongly xs) as Hs. unfold strictly_ascending.
  induction Hs as [| x l Hl IH Hx]; [constructor |].
  inversion Hnd as [| ? ? Hnotin Hnd']; subst.
  constructor; [now apply IH |].
  rewrite Forall_forall in *. intros y Hy.
  apply string_ltb_of_leb; [now apply Hx |].
  intros ->. contradiction.
Qed.

Lemma unique_hashtags_strictly (f : list string -> list string)
    (hashtag_lists : list (list string)) :
  set_order f -> strictly_ascending (unique_hashtags f hashtag_lists).
Proof.
  intros Hf. apply sorted_strictly, (Hf (concat hashtag_lists)).
Qed.

(** X1.  The vocabulary is in strictly ascending order (so it holds no tag
    twice), it holds exactly the tags of the tag lists, and it labels the
    rows and the columns of the matrix the builder returns with it. *)
Theorem vocabulary_is_sorted_set (list_of_set : list string -> list string)
    (hashtag_lists : list (list string)) :
  set_order list_of_set ->
  strictly_ascending (unique_hashtags list_of_set hashtag_lists)
  /\ (forall tag,
        In tag (unique_hashtags list_of_set hashtag_lists)
        <-> exists tags, In tags hashtag_lists /\ In tag tags)
  /\ exists m,
      calculate_cooccurrence_matrix list_of_set hashtag_lists
      = Ok (m, unique_hashtags list_of_set hashtag_lists)
      /\ index m = unique_hashtags list_of_set hashtag_lists
      /\ columns m = unique_hashtags list_of_set hashtag_lists.
Proof.
  intros Hset. split; [now apply unique_hashtags_strictly |]. split.
  - intros tag. rewrite unique_hashtags_In by assumption.
    rewrite in_concat. split; intros (tags & H1 & H2); exists tags; auto.
  - destruct (calculate_cooccurrence_matrix_spec list_of_set hashtag_lists Hset)
      as (m & E & I & C & _).
    exists m. auto.
Qed.

Lemma vocabulary_is_sorted_set_witness :
  strictly_ascending (unique_hashtags last_seen example_lists)
  /\ (forall tag,
        In tag (unique_hashtags last_seen example_lists)
        <-> exists tags, In tags example_lists /\ In tag tags)
  /\ exists m,
      calculate_cooccurrence_matrix last_seen example_lists
      = Ok (m, unique_hashtags last_seen example_lists)
      /\ index m = unique_hashtags last_seen example_lists
      /\ columns m = unique_hashtags last_seen example_lists.
Proof.
  exact (vocabulary_is_sorted_set last_seen example_lists last_seen_order).
Defined.

(** ** What a cell counts *)

Lemma hits_occurrences (p : string * string) (a b : string) :
  hits p a b
  = (if pair_eq_dec p (a, b) then 1 else 0)
    + (if pair_eq_dec p (b, a) then 1 else 0).
Proof.
  destruct p as [x y]. unfold hits, ind. cbn [fst snd].
  destruct (pair_eq_dec (x, y) (a, b)) as [E1 | N1],
    (pair_eq_dec (x, y) (b, a)) as [E2 | N2];
    destruct (String.eqb_spec a x), (String.eqb_spec b y),
      (String.eqb_spec a y), (String.eqb_spec b x);
    cbn [andb]; try reflexivity; congruence.
Qed.

Lemma pair_count_occurrences (ps : list (string * string)) (a b : string) :
  pair_count ps a b = occurrences (a, b) ps + occurrences (b, a) ps.
Proof.
  unfold pair_count, occurrences. induction ps as [| p ps IH]; [reflexivity |].
  cbn [map total fold_right count_occ]. unfold total in IH. rewrite IH.
  rewrite hits_occurrences.
  destruct (pair_eq_dec p (a, b)), (pair_eq_dec p (b, a)); lia.
Qed.

(** X2.  The builder never raises, and the cell of the tags [a] and [b]
    holds the number of visited pairs of positions [(a, b)] plus the number
    of visited pairs [(b, a)]; on the diagonal that is twice the number of
    pairs [(a, a)]. *)
Theorem cell_counts_pairs (list_of_set : list string -> list string)
    (hashtag_lists : list (list string)) :
  set_order list_of_set ->
  exists m,
    calculate_cooccurrence_matrix list_of_set hashtag_lists
    = Ok (m, unique_hashtags list_of_set hashtag_lists)
    /\ forall a b,
        cell m a b
        = occurrences (a, b) (all_pairs hashtag_lists)
          + occurrences (b, a) (all_pairs hashtag_lists).
Proof.
  intros Hset.
  destruct (calculate_cooccurrence_matrix_spec list_of_set hashtag_lists Hset)
    as (m & E & _ & _ & V).
  exists m. split; [exact E |].
  intros a b. rewrite V. apply pair_count_occurrences.
Qed.

Lemma cell_counts_pairs_witness :
  exists m,
    calculate_cooccurrence_matrix last_seen [["a"; "b"; "a"]; ["b"; "a"]]
    = Ok (m, unique_hashtags last_seen [["a"; "b"; "a"]; ["b"; "a"]])
    /\ forall a b,
        cell m a b
        = occurrences (a, b) (all_pairs [["a"; "b"; "a"]; ["b"; "a"]])
          + occurrences (b, a) (all_pairs [["a"; "b"; "a"]; ["b"; "a"]]).
Proof.
  exact (cell_counts_pairs last_seen [["a"; "b"; "a"]; ["b"; "a"]] last_seen_order).
Defined.

Lemma total_perm (xs ys : list Z) : Permutation xs ys -> total xs = total ys.
Proof.
  induction 1 as [| x xs ys _ IH | x y xs | xs ys zs _ IH1 _ IH2]; simpl;
    unfold total in *; simpl; lia.
Qed.

Lemma pair_count_app (ps qs : list (string * string)) (a b : string) :
  pair_count (ps ++ qs) a b = pair_count ps a b + pair_count qs a b.
Proof. unfold pair_count. now rewrite map_app, total_app. Qed.

Lemma pair_count_perm (ps qs : list (string * string)) (a b : string) :
  Permutation ps qs -> pair_count ps a b = pair_count qs a b.
Proof.
  intros H. unfold pair_count. apply total_perm. now apply Permutation_map.
Qed.

Lemma all_pairs_app (l1 l2 : list (list string)) :
  all_pairs (l1 ++ l2) = all_pairs l1 ++ all_pairs l2.
Proof. unfold all_pairs. apply flat_map_app. Qed.

Lemma total_ind_mem (t : string) (ks : list string) :
  NoDup ks -> total (map (fun k => ind (String.eqb t k)) ks) = ind (mem t ks).
Proof.
  induction 1 as [| k ks Hk Hnd IH]; [reflexivity |].
  cbn [map total fold_right mem existsb]. fold (mem t ks).
  unfold total in IH. rewrite IH.
  destruct (String.eqb_spec t k) as [-> | Hne]; simpl; [| reflexivity].
  destruct (mem k ks) eqn:E; [| reflexivity].
  apply mem_In in E. contradiction.
Qed.

(** The pairs of one tag list without a repeated tag. *)
Lemma pair_count_NoDup (tags : list string) (a b : string) :
  NoDup tags -> a <> b ->
  pair_count (combinations2 tags) a b = ind (mem a tags && mem b tags).
Proof.
  intros Hnd Hab. induction Hnd as [| x rest Hx Hnd IH]; [reflexivity |].
  cbn [combinations2]. rewrite pair_count_app, IH.
  unfold pair_count at 1. rewrite map_map. unfold hits. cbn [fst snd].
  rewrite total_map_add.
  rewrite (total_map_ext (fun y => ind (String.eqb a x && String.eqb b y))
             (fun y => ind (String.eqb b y) * ind (String.eqb a x)))
    by (intros; rewrite ind_andb; lia).
  rewrite (total_map_ext (fun y => ind (String.eqb a y && String.eqb b x))
             (fun y => ind (String.eqb a y) * ind (String.eqb b x)))
    by (intros; rewrite ind_andb; lia).
  rewrite !total_map_scale, !total_ind_mem by assumption.
  cbn [mem existsb]. fold (mem a rest). fold (mem b rest).
  destruct (String.eqb_spec a x) as [-> | Hax];
    destruct (String.eqb_spec b x) as [-> | Hbx]; try congruence; simpl.
  - destruct (mem x rest) eqn:E; [apply mem_In in E; contradiction |].
    simpl. destruct (mem b rest); reflexivity.
  - destruct (mem x rest) eqn:E; [apply mem_In in E; contradiction |].
    simpl. destruct (mem a rest); reflexivity.
  - destruct (mem a rest), (mem b rest); reflexivity.
Qed.

Lemma pair_count_lists_with_both (hashtag_lists : list (list string))
    (a b : string) :
  Forall (@NoDup string) hashtag_lists -> a <> b ->
  pair_count (all_pairs hashtag_lists) a b = lists_with_both a b hashtag_lists.
Proof.
  intros Hnd Hab. unfold lists_with_both, all_pairs.
  induction Hnd as [| tags rest Ht _ IH]; [reflexivity |].
  cbn [flat_map filter]. rewrite pair_count_app, IH, pair_count_NoDup by assumption.
  destruct (mem a tags && mem b tags); cbn [length ind]; lia.
Qed.

(** X3.  When no tag list repeats a tag, the cell of two different tags
    holds the number of tag lists that hold both of them. *)
Theorem cell_counts_lists (list_of_set : list string -> list string)
    (hashtag_lists : list (list string)) :
  set_order list_of_set -> Forall (@NoDup string) hashtag_lists ->
  exists m,
    calculate_cooccurrence_matrix list_of_set hashtag_lists
    = Ok (m, unique_hashtags list_of_set hashtag_lists)
    /\ forall a b, a <> b -> cell m a b = lists_with_both a b hashtag_lists.
Proof.
  intros Hset Hnd.
  destruct (calculate_cooccurrence_matrix_spec list_of_set hashtag_lists Hset)
    as (m & E & _ & _ & V).
  exists m. split; [exact E |].
  intros a b Hab. rewrite V. now apply pair_count_lists_with_both.
Qed.

Lemma example_lists_NoDup : Forall (@NoDup string) example_lists.
Proof.
  repeat constructor; simpl; intuition discriminate.
Qed.

Lemma cell_counts_lists_witness :
  exists m,
    calculate_cooccurrence_matrix last_seen example_lists
    = Ok (m, unique_hashtags last_seen example_lists)
    /\ forall a b, a <> b -> cell m a b = lists_with_both a b example_lists.
Proof.
  exact (cell_counts_lists last_seen example_lists last_seen_order
           example_lists_NoDup).
Defined.

(** ** Inputs put together, inputs rearranged *)

(** X4.  The counts of two inputs add up: every cell of the matrix of
    [lists1 ++ lists2] is the sum of the cells of the matrices of [lists1]
    and of [lists2], and its vocabulary holds the tags of both. *)
Theorem counts_add_up (list_of_set : list string -> list string)
    (lists1 lists2 : list (list string)) :
  set_order list_of_set ->
  exists m1 m2 m,
    calculate_cooccurrence_matrix list_of_set lists1
    = Ok (m1, unique_hashtags list_of_set lists1)
    /\ calculate_cooccurrence_matrix list_of_set lists2
       = Ok (m2, unique_hashtags list_of_set lists2)
    /\ calculate_cooccurrence_matrix list_of_set (lists1 ++ lists2)
       = Ok (m, unique_hashtags list_of_set (lists1 ++ lists2))
    /\ (forall a b, cell m a b = cell m1 a b + cell m2 a b)
    /\ (forall tag,
          In tag (unique_hashtags list_of_set (lists1 ++ lists2))
          <-> In tag (unique_hashtags list_of_set lists1)
              \/ In tag (unique_hashtags list_of_set lists2)).
Proof.
  intros Hset.
  destruct (calculate_cooccurrence_matrix_spec list_of_set lists1 Hset)
    as (m1 & E1 & _ & _ & V1).
  destruct (calculate_cooccurrence_matrix_spec list_of_set lists2 Hset)
    as (m2 & E2 & _ & _ & V2).
  destruct (calculate_cooccurrence_matrix_spec list_of_set (lists1 ++ lists2) Hset)
    as (m & E & _ & _ & V).
  exists m1, m2, m. do 3 (split; [assumption |]). split.
  - intros a b. now rewrite V, V1, V2, all_pairs_app, pair_count_app.
  - intros tag. rewrite !unique_hashtags_In by assumption.
    rewrite concat_app, in_app_iff. reflexivity.
Qed.

Lemma counts_add_up_witness :
  exists m1 m2 m,
    calculate_cooccurrence_matrix last_seen example_lists
    = Ok (m1, unique_hashtags last_seen example_lists)
    /\ calculate_cooccurrence_matrix last_seen [["c"; "d"]]
       = Ok (m2, unique_hashtags last_seen [["c"; "d"]])
    /\ calculate_cooccurrence_matrix last_seen (example_lists ++ [["c"; "d"]])
       = Ok (m, unique_hashtags last_seen (example_lists ++ [["c"; "d"]]))
    /\ (forall a b, cell m a b = cell m1 a b + cell m2 a b)
    /\ (forall tag,
          In tag (unique_hashtags last_seen (example_lists ++ [["c"; "d"]]))
          <-> In tag (unique_hashtags last_seen example_lists)
              \/ In tag (unique_hashtags last_seen [["c"; "d"]])).
Proof.
  exact (counts_add_up last_seen example_lists [["c"; "d"]] last_seen_order).
Defined.

Lemma hits_swap (x y a b : string) : hits (x, y) a b = hits (y, x) a b.
Proof. unfold hits. cbn [fst snd]. lia. Qed.

Lemma pair_count_cons (p : string * string) (ps : list (string * string))
    (a b : string) :
  pair_count (p :: ps) a b = hits p a b + pair_count ps a b.
Proof. reflexivity. Qed.

Lemma pair_count_map_pair (x : string) (tags : list string) (a b : string) :
  pair_count (map (pair x) tags) a b
  = total (map (fun y => hits (x, y) a b) tags).
Proof. unfold pair_count. now rewrite map_map. Qed.

(** The order of the tags of a list does not matter to what its pairs add. *)
Lemma pair_count_combinations2_perm (tags tags' : list string) (a b : string) :
  Permutation tags tags' ->
  pair_count (combinations2 tags) a b = pair_count (combinations2 tags') a b.
Proof.
  induction 1 as [| x l l' Hl IH | x y l | l1 l2 l3 _ IH1 _ IH2].
  - reflexivity.
  - cbn [combinations2]. rewrite !pair_count_app, IH, !pair_count_map_pair.
    f_equal. apply total_perm. now apply Permutation_map.
  - cbn [combinations2 map]. rewrite !pair_count_app, !pair_count_cons.
    rewrite (hits_swap y x). lia.
  - congruence.
Qed.

Lemma concat_perm {A : Type} (l l' : list (list A)) :
  Permutation l l' -> Permutation (concat l) (concat l').
Proof.
  induction 1 as [| x l l' _ IH | x y l | l1 l2 l3 _ IH1 _ IH2]; simpl.
  - constructor.
  - now apply Permutation_app_head.
  - rewrite !app_assoc. apply Permutation_app_tail, Permutation_app_comm.
  - eapply perm_trans; eassumption.
Qed.

Lemma concat_perm_each {A : Type} (l l' : list (list A)) :
  Forall2 (@Permutation A) l l' -> Permutation (concat l) (concat l').
Proof.
  induction 1 as [| x y l l' Hxy _ IH]; simpl; [constructor |].
  now apply Permutation_app.
Qed.

Lemma all_pairs_perm_each (l l' : list (list string)) (a b : string) :
  Forall2 (@Permutation string) l l' ->
  pair_count (all_pairs l) a b = pair_count (all_pairs l') a b.
Proof.
  unfold all_pairs. induction 1 as [| x y l l' Hxy _ IH]; [reflexivity |].
  cbn [flat_map]. rewrite !pair_count_app, IH.
  now rewrite (pair_count_combinations2_perm x y a b Hxy).
Qed.

Lemma unique_hashtags_perm (f : list string -> list string)
    (l l' : list (list string)) :
  set_order f -> Permutation (concat l) (concat l') ->
  unique_hashtags f l = unique_hashtags f l'.
Proof.
  intros Hf P. unfold unique_hashtags. apply sorted_of_permutation.
  destruct (Hf (concat l)) as [N1 I1]. destruct (Hf (concat l')) as [N2 I2].
  apply NoDup_Permutation; try assumption.
  intros x. rewrite I1, I2. split; apply Permutation_in;
    [exact P | apply Permutation_sym, P].
Qed.

(** X5.  Neither the order of the tag lists nor the order of the tags
    within a list matters: an input that holds the same lists in another
    order, each with its tags in another order, gives the same vocabulary
    and the same count in every cell. *)
Theorem counts_ignore_order (list_of_set : list string -> list string)
    (lists1 lists lists2 : list (list string)) :
  set_order list_of_set ->
  Permutation lists1 lists -> Forall2 (@Permutation string) lists lists2 ->
  unique_hashtags list_of_set lists1 = unique_hashtags list_of_set lists2
  /\ exists m1 m2,
      calculate_cooccurrence_matrix list_of_set lists1
      = Ok (m1, unique_hashtags list_of_set lists1)
      /\ calculate_cooccurrence_matrix list_of_set lists2
         = Ok (m2, unique_hashtags list_of_set lists2)
      /\ forall a b, cell m1 a b = cell m2 a b.
Proof.
  intros Hset P1 P2. split.
  - apply unique_hashtags_perm; [assumption |].
    eapply perm_trans; [apply concat_perm, P1 | apply concat_perm_each, P2].
  - destruct (calculate_cooccurrence_matrix_spec list_of_set lists1 Hset)
      as (m1 & E1 & _ & _ & V1).
    destruct (calculate_cooccurrence_matrix_spec list_of_set lists2 Hset)
      as (m2 & E2 & _ & _ & V2).
    exists m1, m2. do 2 (split; [assumption |]).
    intros a b. rewrite V1, V2, <- (all_pairs_perm_each lists lists2 a b P2).
    apply pair_count_perm. unfold all_pairs. now apply Permutation_flat_map.
Qed.

Lemma counts_ignore_order_witness :
  unique_hashtags last_seen [["a"; "b"; "c"]; ["c"; "d"]]
  = unique_hashtags last_seen [["d"; "c"]; ["c"; "a"; "b"]]
  /\ exists m1 m2,
      calculate_cooccurrence_matrix last_seen [["a"; "b"; "c"]; ["c"; "d"]]
      = Ok (m1, unique_hashtags last_seen [["a"; "b"; "c"]; ["c"; "d"]])
      /\ calculate_cooccurrence_matrix last_seen [["d"; "c"]; ["c"; "a"; "b"]]
         = Ok (m2, unique_hashtags last_seen [["d"; "c"]; ["c"; "a"; "b"]])
      /\ forall a b, cell m1 a b = cell m2 a b.
Proof.
  apply (counts_ignore_order last_seen
           [["a"; "b"; "c"]; ["c"; "d"]] [["c"; "d"]; ["a"; "b"; "c"]]
           [["d"; "c"]; ["c"; "a"; "b"]]).
  - exact last_seen_order.
  - apply perm_swap.
  - apply Forall2_cons; [apply perm_swap | apply Forall2_cons].
    + eapply perm_trans; [apply perm_skip, perm_swap | apply perm_swap].
    + apply Forall2_nil.
Defined.

Lemma memberships_app (a : string) (ps qs : list (string * string)) :
  memberships a (ps ++ qs) = memberships a ps + memberships a qs.
Proof. unfold memberships. now rewrite map_app, total_app. Qed.

Lemma ind_eqb_count (a x : string) (tags : list string) :
  Z.of_nat (count_occ string_dec (x :: tags) a)
  = ind (String.eqb a x) + Z.of_nat (count_occ string_dec tags a).
Proof.
  cbn [count_occ]. destruct (string_dec x a) as [-> | N].
  - rewrite String.eqb_refl. cbn [ind]. lia.
  - destruct (String.eqb_spec a x) as [-> | _]; [congruence |]. cbn [ind]. lia.
Qed.

Lemma memberships_map_pair (a x : string) (tags : list string) :
  memberships a (map (pair x) tags)
  = Z.of_nat (length tags) * ind (String.eqb a x)
    + Z.of_nat (count_occ string_dec tags a).
Proof.
  unfold memberships. rewrite map_map. cbn [fst snd].
  induction tags as [| y tags IH]; [reflexivity |].
  rewrite ind_eqb_count. cbn [map total fold_right length].
  unfold total in IH. rewrite IH. lia.
Qed.

(** A tag stands in as many pairs of its list as it has occurrences, times
    the other positions of the list. *)
Lemma memberships_combinations2 (a : string) (tags : list string) :
  memberships a (combinations2 tags)
  = Z.of_nat (count_occ string_dec tags a) * (Z.of_nat (length tags) - 1).
Proof.
  induction tags as [| x tags IH]; [reflexivity |].
  cbn [combinations2]. rewrite memberships_app, memberships_map_pair, IH.
  rewrite ind_eqb_count. cbn [length]. lia.
Qed.

Lemma memberships_all_pairs (a : string) (hashtag_lists : list (list string)) :
  memberships a (all_pairs hashtag_lists) = neighbours a hashtag_lists.
Proof.
  unfold all_pairs, neighbours.
  induction hashtag_lists as [| tags rest IH]; [reflexivity |].
  cbn [flat_map map total fold_right].
  rewrite memberships_app, memberships_combinations2, IH. reflexivity.
Qed.

(** The sum of a column of counts over distinct row labels that hold both
    tags of every pair. *)
Lemma column_total (ps : list (string * string)) (ks : list string) (a : string) :
  NoDup ks ->
  (forall p, In p ps -> In (fst p) ks /\ In (snd p) ks) ->
  total (map (fun r => pair_count ps r a) ks) = memberships a ps.
Proof.
  intros N. induction ps as [| p ps IH]; intros H.
  - unfold pair_count, memberships. cbn [map total fold_right].
    apply total_map_zero.
  - rewrite (total_map_ext _ (fun r => hits p r a + pair_count ps r a))
      by (intros; apply pair_count_cons).
    rewrite total_map_add, IH by (intros q Hq; apply H; now right).
    destruct (H p (or_introl eq_refl)) as [Hx Hy].
    unfold memberships at 2. cbn [map total fold_right].
    fold (total (map (fun p0 => ind (String.eqb a (fst p0))
                                + ind (String.eqb a (snd p0))) ps)).
    fold (memberships a ps).
    enough (total (map (fun r => hits p r a) ks)
            = ind (String.eqb a (fst p)) + ind (String.eqb a (snd p))) by lia.
    unfold hits.
    rewrite total_map_add.
    rewrite (total_map_ext
               (fun r => ind (String.eqb r (fst p) && String.eqb a (snd p)))
               (fun r => ind (String.eqb r (fst p)) * ind (String.eqb a (snd p))))
      by (intros; apply ind_andb).
    rewrite (total_map_ext
               (fun r => ind (String.eqb r (snd p) && String.eqb a (fst p)))
               (fun r => ind (String.eqb r (snd p)) * ind (String.eqb a (fst p))))
      by (intros; apply ind_andb).
    rewrite !total_map_scale, !total_ind_label by assumption. lia.
Qed.

(** X6.  The sum of the column of a tag, from which its marginal
    probability is made, is the number of tags that stand beside it: each
    occurrence of the tag in a list counts the other positions of that
    list.  The marginal series is labelled by the vocabulary and holds that
    number divided by the total. *)
Theorem column_sums (list_of_set : list string -> list string)
    (hashtag_lists : list (list string)) :
  set_order list_of_set ->
  exists m,
    calculate_cooccurrence_matrix list_of_set hashtag_lists
    = Ok (m, unique_hashtags list_of_set hashtag_lists)
    /\ labels (marginal_probs m) = unique_hashtags list_of_set hashtag_lists
    /\ forall a,
        item (df_sum m) a = neighbours a hashtag_lists
        /\ item (marginal_probs m) a
           = (float_of_Z (neighbours a hashtag_lists) / total_cooccurrences m)%float.
Proof.
  intros Hset.
  destruct (calculate_cooccurrence_matrix_spec list_of_set hashtag_lists Hset)
    as (m & E & I & C & V).
  exists m. split; [exact E |]. split; [exact C |].
  assert (forall a, item (df_sum m) a = neighbours a hashtag_lists) as S.
  { intros a. unfold df_sum. cbn [item]. rewrite I.
    rewrite (total_map_ext _
               (fun r => pair_count (all_pairs hashtag_lists) r a))
      by (intros; apply V).
    rewrite column_total, memberships_all_pairs; [reflexivity | |].
    - now apply unique_hashtags_NoDup.
    - intros [x y] Hp. apply all_pairs_In in Hp as [Hx Hy]. simpl.
      split; now apply unique_hashtags_In. }
  intros a. split; [apply S |].
  unfold marginal_probs. cbn [item]. now rewrite S.
Qed.

Lemma column_sums_witness :
  exists m,
    calculate_cooccurrence_matrix last_seen example_lists
    = Ok (m, unique_hashtags last_seen example_lists)
    /\ labels (marginal_probs m) = unique_hashtags last_seen example_lists
    /\ forall a,
        item (df_sum m) a = neighbours a example_lists
        /\ item (marginal_probs m) a
           = (float_of_Z (neighbours a example_lists) / total_cooccurrences m)%float.
Proof. exact (column_sums last_seen example_lists last_seen_order). Defined.

(** ** The PMI calculator on any frame *)

Section PMIErrors.

Variable log2 : float -> float.
Variable m : DataFrame Z.

Lemma pmi_cell_cases (tag1 tag2 : string) (p : DataFrame float) :
  In tag2 (columns m) ->
  pmi_cell log2 m tag1 p tag2
  = if writes m tag1 tag2
    then if mem tag1 (columns m)
         then Ok (set_loc p tag1 tag2 (pmi_score log2 m tag1 tag2))
         else Raise (KeyError tag1)
    else Ok p.
Proof.
  intros H2. unfold pmi_cell, writes.
  destruct (String.eqb tag1 tag2); [reflexivity |]. cbn [negb andb].
  destruct (0 <? joint_prob m tag1 tag2)%float; [| reflexivity].
  unfold getitem. cbn [labels marginal_probs].
  apply mem_In in H2. rewrite H2.
  now destruct (mem tag1 (columns m)).
Qed.

(** A row whose label is no column label stops at its first write. *)
Lemma pmi_row_missing (tag1 : string) (cs : list string) (p : DataFrame float) :
  mem tag1 (columns m) = false -> incl cs (columns m) ->
  for_each (pmi_cell log2 m tag1) cs p
  = if existsb (writes m tag1) cs then Raise (KeyError tag1) else Ok p.
Proof.
  intros H1. induction cs as [| c cs IH]; intros Hcs; [reflexivity |].
  cbn [for_each existsb].
  rewrite pmi_cell_cases by (apply Hcs; now left). rewrite H1.
  destruct (writes m tag1 c); [reflexivity |]. cbn [bind orb].
  apply IH. intros x Hx. apply Hcs. now right.
Qed.

Lemma missing_writes (tag1 b : string) :
  mem tag1 (columns m) = false ->
  existsb (writes m tag1) (columns m) = false ->
  mem b (columns m) && writes m tag1 b = false.
Proof.
  intros _ H. destruct (mem b (columns m)) eqn:Hb; [| reflexivity].
  destruct (writes m tag1 b) eqn:W; [| reflexivity].
  assert (existsb (writes m tag1) (columns m) = true) as T
    by (apply existsb_exists; exists b; split; [now apply mem_In | exact W]).
  congruence.
Qed.

(** A row that is not [missing] runs to its end. *)
Lemma pmi_row_cases (tag1 : string) (p : DataFrame float) :
  missing m tag1 = false ->
  exists p',
    for_each (pmi_cell log2 m tag1) (columns m) p = Ok p'
    /\ index p' = index p /\ columns p' = columns p
    /\ forall a b,
        cell p' a b
        = if String.eqb a tag1 && mem b (columns m) && writes m tag1 b
          then pmi_score log2 m tag1 b
          else cell p a b.
Proof.
  unfold missing. intros M.
  destruct (mem tag1 (columns m)) eqn:H1.
  - apply pmi_row_spec; [now apply mem_In | apply incl_refl].
  - cbn [negb andb] in M. exists p.
    rewrite pmi_row_missing, M by (assumption || apply incl_refl).
    repeat split. intros a b.
    destruct (String.eqb_spec a tag1) as [-> | _]; [| reflexivity].
    cbn [andb]. now rewrite missing_writes.
Qed.

(** The rows of [calculate_pmi] on any frame: the loop stops at the first
    row that is [missing], with that label as the key of the error, and
    runs to its end when there is none. *)
Lemma pmi_rows_cases (rs : list string) (p : DataFrame float) :
  match find (missing m) rs with
  | Some tag1 =>
      for_each (fun p tag1 => for_each (pmi_cell log2 m tag1) (columns m) p) rs p
      = Raise (KeyError tag1)
  | None =>
      exists p',
        for_each (fun p tag1 => for_each (pmi_cell log2 m tag1) (columns m) p) rs p
        = Ok p'
        /\ index p' = index p /\ columns p' = columns p
        /\ forall a b,
            cell p' a b
            = if mem a rs && mem b (columns m) && writes m a b
              then pmi_score log2 m a b
              else cell p a b
  end.
Proof.
  revert p. induction rs as [| r rs IH]; intros p.
  - cbn [find]. exists p. repeat split.
  - cbn [find for_each]. destruct (missing m r) eqn:M.
    + unfold missing in M. apply andb_prop in M as [M1 M2].
      apply negb_true_iff in M1.
      now rewrite pmi_row_missing, M2 by (assumption || apply incl_refl).
    + destruct (pmi_row_cases r p M) as (p1 & E1 & I1 & C1 & V1).
      rewrite E1. cbn [bind]. specialize (IH p1).
      destruct (find (missing m) rs) as [tag1 |]; [exact IH |].
      destruct IH as (p2 & E2 & I2 & C2 & V2).
      exists p2. split; [exact E2 |]. repeat split; try congruence.
      intros a b. rewrite V2, V1. cbn [mem existsb]. fold (mem a rs).
      destruct (String.eqb_spec a r) as [-> | Ha]; simpl.
      * destruct (mem r rs); simpl; [| reflexivity].
        now destruct (mem b (columns m) && writes m r b).
      * reflexivity.
Qed.

End PMIErrors.

(** X7.  [calculate_pmi] on any frame with distinct labels and sums that
    fit in 64 bits.  It raises
    [KeyError] exactly when some row label is no column label while a score
    of its row is to be written, and the key of the error is the first such
    row label; otherwise it returns a frame with the labels of its
    argument, holding the score of every pair it writes and zero in every
    other cell. *)
Theorem calculate_pmi_key_error (log2 : float -> float) (m : DataFrame Z) :
  unique_labels m -> sums_fit m ->
  match find (missing m) (index m) with
  | Some tag1 => calculate_pmi log2 m = Raise (KeyError tag1)
  | None =>
      exists p,
        calculate_pmi log2 m = Ok p
        /\ index p = index m /\ columns p = columns m
        /\ forall a b,
            cell p a b
            = if mem a (index m) && mem b (columns m) && writes m a b
              then pmi_score log2 m a b
              else 0%float
  end.
Proof.
  intros _ _. unfold calculate_pmi.
  exact (pmi_rows_cases log2 m (index m) (full 0%float (index m) (columns m))).
Qed.

Lemma calculate_pmi_key_error_witness :
  calculate_pmi log2_interp example_not_square = Raise (KeyError "x").
Proof.
  apply (calculate_pmi_key_error log2_interp example_not_square).
  - split; repeat constructor; simpl; intuition congruence.
  - split; [| split].
    + intros r c _ _. fits_in_64_bits.
    + intros c _. fits_in_64_bits.
    + fits_in_64_bits.
Defined.

Lemma zero_div_not_positive (t : float) : (0 <? 0 / t)%float = false.
Proof.
  rewrite ltb_spec, div_spec.
  change (Prim2SF 0) with (S754_zero false).
  destruct (Prim2SF t) as [s | s | | s mt e]; try destruct s; reflexivity.
Qed.

Lemma writes_zero (m : DataFrame Z) (a b : string) :
  cell m a b = 0 -> writes m a b = false.
Proof.
  intros H. unfold writes, joint_prob. rewrite H.
  change (float_of_Z 0) with 0%float.
  rewrite zero_div_not_positive. apply andb_false_r.
Qed.

(** X8.  A pair that was never counted keeps the score zero: on a frame
    with distinct labels, whatever the total and the logarithm,
    [calculate_pmi] writes no cell whose count is zero, so the score of
    such a pair is the initial zero and not minus infinity. *)
Theorem zero_count_zero_score (log2 : float -> float) (m : DataFrame Z)
    (p : DataFrame float) (a b : string) :
  unique_labels m ->
  calculate_pmi log2 m = Ok p -> cell m a b = 0 -> cell p a b = 0%float.
Proof.
  intros _ E Z0. unfold calculate_pmi in E.
  pose proof (pmi_rows_cases log2 m (index m)
                (full 0%float (index m) (columns m))) as H.
  destruct (find (missing m) (index m)) as [tag1 |].
  - rewrite E in H. discriminate.
  - destruct H as (p' & E' & _ & _ & V). rewrite E in E'.
    injection E' as <-. rewrite V, (writes_zero m a b Z0).
    now rewrite andb_false_r.
Qed.

Lemma zero_count_zero_score_witness :
  exists p,
    calculate_pmi log2_interp example_matrix = Ok p
    /\ cell p "b" "c" = 0%float.
Proof.
  destruct (calculate_pmi log2_interp example_matrix) as [p |] eqn:E.
  - exists p. split; [reflexivity |].
    apply (zero_count_zero_score log2_interp example_matrix p "b" "c");
      [| exact E | reflexivity].
    split; repeat constructor; simpl; intuition congruence.
  - exfalso. vm_compute in E. discriminate.
Defined.

Lemma hits_map_pair (x a b : string) (tags : list string) :
  total (map (fun y => hits (x, y) a b) tags)
  = ind (String.eqb a x) * Z.of_nat (count_occ string_dec tags b)
    + ind (String.eqb b x) * Z.of_nat (count_occ string_dec tags a).
Proof.
  induction tags as [| y tags IH]; [cbn; lia |].
  rewrite !ind_eqb_count. cbn [map total fold_right]. unfold total in IH.
  rewrite IH. unfold hits. cbn [fst snd]. rewrite !ind_andb. lia.
Qed.

Lemma ind_square (c : bool) : ind c * ind c = ind c.
Proof. now destruct c. Qed.

Lemma ind_eqb_distinct (a b x : string) :
  String.eqb a b = false -> ind (String.eqb a x) * ind (String.eqb b x) = 0.
Proof.
  intros N. destruct (String.eqb_spec a x) as [-> | _]; [| reflexivity].
  destruct (String.eqb_spec b x) as [-> | _]; [| reflexivity].
  now rewrite String.eqb_refl in N.
Qed.

(** What the pairs of one list add to a cell, repeated tags included. *)
Lemma pair_count_combinations2 (tags : list string) (a b : string) :
  pair_count (combinations2 tags) a b
  = Z.of_nat (count_occ string_dec tags a)
    * (Z.of_nat (count_occ string_dec tags b) - ind (String.eqb a b)).
Proof.
  induction tags as [| x tags IH]; [reflexivity |].
  cbn [combinations2].
  rewrite pair_count_app, pair_count_map_pair, hits_map_pair, IH.
  rewrite !ind_eqb_count.
  destruct (String.eqb a b) eqn:E.
  - apply String.eqb_eq in E as ->. cbn [ind].
    pose proof (ind_square (String.eqb b x)). nia.
  - pose proof (ind_eqb_distinct a b x E). cbn [ind]. nia.
Qed.

Lemma pair_count_position_pairs (hashtag_lists : list (list string))
    (a b : string) :
  pair_count (all_pairs hashtag_lists) a b = position_pairs a b hashtag_lists.
Proof.
  unfold all_pairs, position_pairs.
  induction hashtag_lists as [| tags rest IH]; [reflexivity |].
  cbn [flat_map map total fold_right].
  now rewrite pair_count_app, pair_count_combinations2, IH.
Qed.

(** X9.  Every cell in closed form, repeated tags included: the cell of
    two tags holds, summed over the lists, the number of pairs of positions
    of the list with one tag at one position and the other tag at the
    other; for two different tags that is the product of their numbers of
    occurrences, and on the diagonal it is c * (c - 1) for a tag that stands
    c times in the list. *)
Theorem cell_closed_form (list_of_set : list string -> list string)
    (hashtag_lists : list (list string)) :
  set_order list_of_set ->
  exists m,
    calculate_cooccurrence_matrix list_of_set hashtag_lists
    = Ok (m, unique_hashtags list_of_set hashtag_lists)
    /\ forall a b, cell m a b = position_pairs a b hashtag_lists.
Proof.
  intros Hset.
  destruct (calculate_cooccurrence_matrix_spec list_of_set hashtag_lists Hset)
    as (m & E & _ & _ & V).
  exists m. split; [exact E |].
  intros a b. now rewrite V, pair_count_position_pairs.
Qed.

Lemma cell_closed_form_witness :
  exists m,
    calculate_cooccurrence_matrix last_seen [["a"; "b"; "a"]; ["b"; "a"]]
    = Ok (m, unique_hashtags last_seen [["a"; "b"; "a"]; ["b"; "a"]])
    /\ forall a b, cell m a b = position_pairs a b [["a"; "b"; "a"]; ["b"; "a"]].
Proof.
  exact (cell_closed_form last_seen [["a"; "b"; "a"]; ["b"; "a"]] last_seen_order).
Defined.

Lemma series_sum_pairs (list_of_set : list string -> list string)
    (hashtag_lists : list (list string)) (m : DataFrame Z) :
  set_order list_of_set ->
  index m = unique_hashtags list_of_set hashtag_lists ->
  columns m = unique_hashtags list_of_set hashtag_lists ->
  (forall a b, cell m a b = pair_count (all_pairs hashtag_lists) a b) ->
  series_sum (df_sum m) = 2 * Z.of_nat (length (all_pairs hashtag_lists)).
Proof.
  intros Hset I C V.
  unfold series_sum, df_sum. cbn [labels item]. rewrite I, C.
  rewrite (total_map_ext _
             (fun c => total (map (fun r => pair_count (all_pairs hashtag_lists) r c)
                                (unique_hashtags list_of_set hashtag_lists)))).
  - rewrite grand_total_pair_count; [reflexivity | |].
    + now apply unique_hashtags_NoDup.
    + intros [x y] Hp. apply all_pairs_In in Hp as [Hx Hy]. simpl.
      split; now apply unique_hashtags_In.
  - intros c _. apply total_map_ext. intros r _. apply V.
Qed.

Lemma pairs_of_long_list (hashtag_lists : list (list string)) :
  all_pairs hashtag_lists = [] ->
  forall tags, In tags hashtag_lists -> (length tags <= 1)%nat.
Proof.
  unfold all_pairs. induction hashtag_lists as [| t rest IH]; intros H tags Ht.
  - destruct Ht.
  - cbn [flat_map] in H. apply app_eq_nil in H as [H1 H2].
    destruct Ht as [<- | Ht]; [| now apply IH].
    destruct t as [| x [| y t]]; simpl; try lia. discriminate H1.
Qed.

(** X10.  The total by which [calculate_pmi] divides is zero exactly when
    no list holds two tags: as soon as one list has two positions the
    total is not zero, and the divisions by it are divisions by zero only
    for an input without any pair. *)
Theorem total_zero_iff_no_pairs (list_of_set : list string -> list string)
    (hashtag_lists : list (list string)) :
  set_order list_of_set ->
  exists m,
    calculate_cooccurrence_matrix list_of_set hashtag_lists
    = Ok (m, unique_hashtags list_of_set hashtag_lists)
    /\ ((total_cooccurrences m =? 0)%float = true
        <-> forall tags, In tags hashtag_lists -> (length tags <= 1)%nat).
Proof.
  intros Hset.
  destruct (calculate_cooccurrence_matrix_spec list_of_set hashtag_lists Hset)
    as (m & E & I & C & V).
  destruct (calculate_cooccurrence_matrix_frame list_of_set hashtag_lists Hset)
    as (m' & E' & F).
  rewrite E in E'. injection E' as <-.
  pose proof (series_sum_pairs list_of_set hashtag_lists m Hset I C V) as S.
  exists m. split; [exact E |]. split.
  - intros Z0. apply zero_total_sum in Z0; [| exact F].
    apply pairs_of_long_list.
    destruct (all_pairs hashtag_lists); [reflexivity |].
    rewrite Z0 in S. cbn [length] in S. lia.
  - intros H. apply no_pairs in H. rewrite H in S. cbn [length] in S.
    unfold total_cooccurrences. rewrite S. reflexivity.
Qed.

Lemma total_zero_iff_no_pairs_witness :
  exists m,
    calculate_cooccurrence_matrix last_seen example_lists
    = Ok (m, unique_hashtags last_seen example_lists)
    /\ ((total_cooccurrences m =? 0)%float = true
        <-> forall tags, In tags example_lists -> (length tags <= 1)%nat).
Proof.
  exact (total_zero_iff_no_pairs last_seen example_lists last_seen_order).
Defined.

(** ** The rows of the ranking *)

Lemma pmi_values_rows_from (p : DataFrame float) :
  pmi_values p = flat_map (fun tag1 => rows_from p tag1 (columns p)) (index p).
Proof. reflexivity. Qed.

Lemma rows_from_app (p : DataFrame float) (tag1 : string) (cs ds : list string) :
  rows_from p tag1 (cs ++ ds) = rows_from p tag1 cs ++ rows_from p tag1 ds.
Proof. unfold rows_from. apply flat_map_app. Qed.

Lemma rows_from_below (p : DataFrame float) (tag1 : string) (cs : list string) :
  (forall c, In c cs -> String.ltb tag1 c = false) -> rows_from p tag1 cs = [].
Proof.
  unfold rows_from. induction cs as [| c cs IH]; intros H; [reflexivity |].
  cbn [flat_map]. rewrite (H c (or_introl eq_refl)), IH; [reflexivity |].
  intros d Hd. apply H. now right.
Qed.

Lemma rows_from_above (p : DataFrame float) (tag1 : string) (cs : list string) :
  (forall c, In c cs -> String.ltb tag1 c = true) ->
  rows_from p tag1 cs = map (fun c => row_of p (tag1, c)) cs.
Proof.
  unfold rows_from. induction cs as [| c cs IH]; intros H; [reflexivity |].
  cbn [flat_map map]. rewrite (H c (or_introl eq_refl)), IH; [reflexivity |].
  intros d Hd. apply H. now right.
Qed.

Lemma rows_of_ascending (p : DataFrame float) (ks pre : list string) :
  strictly_ascending ks ->
  (forall c k, In c pre -> In k ks -> String.ltb c k = true) ->
  flat_map (fun tag1 => rows_from p tag1 (pre ++ ks)) ks
  = map (row_of p) (combinations2 ks).
Proof.
  unfold strictly_ascending. intros S. revert pre.
  induction S as [| x ks S IH Hx]; intros pre Hpre; [reflexivity |].
  cbn [flat_map combinations2]. rewrite map_app, map_map. f_equal.
  - rewrite rows_from_app, rows_from_below.
    + change (x :: ks) with ([x] ++ ks).
      rewrite rows_from_app, (rows_from_below p x [x]).
      * apply rows_from_above. intros c Hc.
        rewrite Forall_forall in Hx. now apply Hx.
      * intros c [<- | []]. apply string_ltb_irrefl.
    + intros c Hc. apply string_ltb_asym, Hpre; [exact Hc | now left].
  - change (pre ++ x :: ks) with (pre ++ [x] ++ ks). rewrite app_assoc.
    rewrite <- (IH (pre ++ [x])).
    + reflexivity.
    + intros c k Hc Hk. apply in_app_iff in Hc as [Hc | [<- | []]].
      * apply Hpre; [exact Hc | now right].
      * rewrite Forall_forall in Hx. now apply Hx.
Qed.

Lemma rows_from_In (p : DataFrame float) (tag1 : string) (cs : list string)
    (row : Collocation) :
  In row (rows_from p tag1 cs)
  <-> exists c, In c cs /\ String.ltb tag1 c = true /\ row = row_of p (tag1, c).
Proof.
  unfold rows_from. rewrite in_flat_map. split.
  - intros (c & Hc & H). exists c. split; [exact Hc |].
    destruct (String.ltb tag1 c); [| destruct H].
    destruct H as [<- | []]. now split.
  - intros (c & Hc & L & ->). exists c. split; [exact Hc |].
    rewrite L. now left.
Qed.

Lemma pmi_values_In (p : DataFrame float) (row : Collocation) :
  In row (pmi_values p)
  <-> exists a b,
      In a (index p) /\ In b (columns p) /\ String.ltb a b = true
      /\ row = row_of p (a, b).
Proof.
  rewrite pmi_values_rows_from, in_flat_map. split.
  - intros (a & Ha & H). apply rows_from_In in H as (b & Hb & L & ->).
    now exists a, b.
  - intros (a & b & Ha & Hb & L & ->). exists a. split; [exact Ha |].
    apply rows_from_In. now exists b.
Qed.

Lemma rows_from_NoDup (p : DataFrame float) (tag1 : string) (cs : list string) :
  NoDup cs -> NoDup (rows_from p tag1 cs).
Proof.
  induction 1 as [| c cs Hc N IH]; [constructor |].
  change (c :: cs) with ([c] ++ cs). rewrite rows_from_app.
  apply NoDup_app; [| exact IH |].
  - unfold rows_from. cbn [flat_map]. rewrite app_nil_r.
    destruct (String.ltb tag1 c); repeat constructor. intros [].
  - intros row H1 H2.
    apply rows_from_In in H1 as (c1 & [<- | []] & _ & ->).
    apply rows_from_In in H2 as (c2 & H2 & _ & E).
    injection E as <-. contradiction.
Qed.

(** With distinct labels on both axes no row is made twice. *)
Lemma pmi_values_NoDup (p : DataFrame float) :
  unique_labels p -> NoDup (pmi_values p).
Proof.
  intros [Ni Nc]. rewrite pmi_values_rows_from.
  induction Ni as [| r rs Hr Ni IH]; [constructor |].
  cbn [flat_map]. apply NoDup_app; [now apply rows_from_NoDup | exact IH |].
  intros row H1 H2.
  apply rows_from_In in H1 as (c1 & _ & _ & ->).
  apply in_flat_map in H2 as (r' & Hr' & H2).
  apply rows_from_In in H2 as (c2 & _ & _ & E).
  injection E as <- _. contradiction.
Qed.

Lemma pmi_values_pairs_NoDup (p : DataFrame float) :
  unique_labels p -> NoDup (map fst (pmi_values p)).
Proof.
  intros U. apply NoDup_map_NoDup_ForallPairs; [| now apply pmi_values_NoDup].
  intros r1 r2 H1 H2 E.
  apply pmi_values_In in H1 as (a1 & b1 & _ & _ & _ & ->).
  apply pmi_values_In in H2 as (a2 & b2 & _ & _ & _ & ->).
  unfold row_of in *. cbn [fst snd] in *. now injection E as -> ->.
Qed.

Lemma NoDup_prefix {A : Type} (xs ys : list A) : NoDup (xs ++ ys) -> NoDup xs.
Proof. apply NoDup_app_remove_r. Qed.

(** X11.  Over labels in strictly ascending order, the same on both axes,
    as in every frame the analysis builds, the rows that
    [get_top_collocations] ranks are the rows of the pairs of positions of
    the labels, in the order of [combinations]: one row for each unordered
    pair of different tags, k * (k - 1) / 2 rows for k tags. *)
Theorem ranking_candidates (pmi : DataFrame float) :
  strictly_ascending (index pmi) -> columns pmi = index pmi ->
  pmi_values pmi = map (row_of pmi) (combinations2 (index pmi))
  /\ Z.of_nat (length (pmi_values pmi))
     = choose2 (Z.of_nat (length (index pmi))).
Proof.
  intros S C.
  assert (pmi_values pmi = map (row_of pmi) (combinations2 (index pmi))) as E.
  { rewrite pmi_values_rows_from, C.
    apply (rows_of_ascending pmi (index pmi) [] S). intros c k []. }
  split; [exact E |].
  now rewrite E, length_map, combinations2_length.
Qed.

Lemma ranking_candidates_witness :
  pmi_values zero_scores = map (row_of zero_scores) (combinations2 (index zero_scores))
  /\ Z.of_nat (length (pmi_values zero_scores))
     = choose2 (Z.of_nat (length (index zero_scores))).
Proof.
  apply (ranking_candidates zero_scores); [| reflexivity].
  repeat constructor.
Defined.

(** X12.  The rows [get_top_collocations] returns are the leading rows of
    the sorted table: the rows it leaves out together with the rows it
    returns are the rows of the frame, every returned row may stand before
    every row left out, and the number of rows returned is the smaller of
    [n] and the number of rows when [n] is not negative, and otherwise the
    number of rows less [-n], or none. *)
Theorem top_rows_lead (sort_values : list Collocation -> list Collocation)
    (pmi : DataFrame float) (n : Z) :
  sorts_descending sort_values -> unique_labels pmi ->
  (exists rest,
      sort_values (pmi_values pmi)
      = get_top_collocations sort_values pmi (Some n) ++ rest
      /\ Permutation (pmi_values pmi)
           (get_top_collocations sort_values pmi (Some n) ++ rest)
      /\ forall row row',
          In row (get_top_collocations sort_values pmi (Some n)) ->
          In row' rest -> ordered row row')
  /\ Z.of_nat (length (get_top_collocations sort_values pmi (Some n)))
     = if (0 <=? n)%Z then Z.min n (Z.of_nat (length (pmi_values pmi)))
       else Z.max 0 (Z.of_nat (length (pmi_values pmi)) + n).
Proof.
  intros Hsort _. destruct (Hsort (pmi_values pmi)) as [P D].
  change (get_top_collocations sort_values pmi (Some n))
    with (head (sort_values (pmi_values pmi)) n). split.
  - destruct (head_prefix (sort_values (pmi_values pmi)) n) as [rest E].
    exists rest. split; [exact E |]. split; [now rewrite <- E |].
    apply StronglySorted_app_cross. now rewrite <- E.
  - rewrite head_length_exact, (Permutation_length P). reflexivity.
Qed.

Lemma top_rows_lead_witness :
  (exists rest,
      sort_values_stable (pmi_values zero_scores)
      = get_top_collocations sort_values_stable zero_scores (Some 2) ++ rest
      /\ Permutation (pmi_values zero_scores)
           (get_top_collocations sort_values_stable zero_scores (Some 2) ++ rest)
      /\ forall row row',
          In row (get_top_collocations sort_values_stable zero_scores (Some 2)) ->
          In row' rest -> ordered row row')
  /\ Z.of_nat (length (get_top_collocations sort_values_stable zero_scores (Some 2)))
     = 2.
Proof.
  apply (top_rows_lead sort_values_stable zero_scores 2).
  - exact sort_values_stable_sorts.
  - split; repeat constructor; simpl; intuition congruence.
Defined.

(** X13.  Every row of the ranking is the row of a pair of the frame: its
    first tag is a row label, its second tag a column label, the first
    stands strictly before the second in the order of the strings, and its
    score is the cell of the two.  With distinct labels no pair of tags is
    listed twice. *)
Theorem ranking_rows (sort_values : list Collocation -> list Collocation)
    (pmi : DataFrame float) (n : Z) :
  sorts_descending sort_values -> unique_labels pmi ->
  (forall tag1 tag2 score,
      In (tag1, tag2, score) (get_top_collocations sort_values pmi (Some n)) ->
      In tag1 (index pmi) /\ In tag2 (columns pmi)
      /\ String.ltb tag1 tag2 = true /\ score = cell pmi tag1 tag2)
  /\ NoDup (map fst (get_top_collocations sort_values pmi (Some n))).
Proof.
  intros Hsort U. destruct (Hsort (pmi_values pmi)) as [P _].
  change (get_top_collocations sort_values pmi (Some n))
    with (head (sort_values (pmi_values pmi)) n).
  destruct (head_prefix (sort_values (pmi_values pmi)) n) as [rest E]. split.
  - intros tag1 tag2 score H.
    assert (In (tag1, tag2, score) (pmi_values pmi)) as H'.
    { apply (Permutation_in _ (Permutation_sym P)). rewrite E.
      apply in_or_app. now left. }
    apply pmi_values_In in H' as (a & b & Ha & Hb & L & R).
    unfold row_of in R. cbn [fst snd] in R. injection R as -> -> ->.
    now repeat split.
  - assert (NoDup (map fst (sort_values (pmi_values pmi)))) as N
      by (apply (Permutation_NoDup (Permutation_map fst P));
          now apply pmi_values_pairs_NoDup).
    rewrite E, map_app in N. exact (NoDup_prefix _ _ N).
Qed.

Lemma ranking_rows_witness :
  (forall tag1 tag2 score,
      In (tag1, tag2, score) (get_top_collocations sort_values_stable zero_scores (Some 2)) ->
      In tag1 (index zero_scores) /\ In tag2 (columns zero_scores)
      /\ String.ltb tag1 tag2 = true /\ score = cell zero_scores tag1 tag2)
  /\ NoDup (map fst (get_top_collocations sort_values_stable zero_scores (Some 2))).
Proof.
  apply (ranking_rows sort_values_stable zero_scores 2).
  - exact sort_values_stable_sorts.
  - split; repeat constructor; simpl; intuition congruence.
Defined.

(** ** The stages together *)

Lemma load_and_extract_hashtags_map (lower : string -> string) (data : list Post) :
  load_and_extract_hashtags lower data
  = map (fun post => map lower (tags_of post)) (filter has_tags data).
Proof. unfold load_and_extract_hashtags. now rewrite extract_loop. Qed.

Lemma filter_idempotent {A : Type} (f : A -> bool) (xs : list A) :
  filter f (filter f xs) = filter f xs.
Proof. apply forallb_filter_id, forallb_filter. Qed.

Lemma filter_perm {A : Type} (f : A -> bool) (xs ys : list A) :
  Permutation xs ys -> Permutation (filter f xs) (filter f ys).
Proof.
  induction 1 as [| x l l' _ IH | x y l | l1 l2 l3 _ IH1 _ IH2]; cbn [filter].
  - constructor.
  - destruct (f x); [now constructor | exact IH].
  - destruct (f x), (f y); try apply Permutation_refl. apply perm_swap.
  - eapply perm_trans; eassumption.
Qed.

(** X14.  The extractor reads post by post: the lists of two batches of
    posts one after the other are the lists of the first followed by the
    lists of the second, posts without a tag can be dropped beforehand, and
    there are at most as many lists as posts. *)
Theorem extractor_appends (lower : string -> string) (data1 data2 : list Post) :
  load_and_extract_hashtags lower (data1 ++ data2)
  = load_and_extract_hashtags lower data1 ++ load_and_extract_hashtags lower data2
  /\ load_and_extract_hashtags lower (filter has_tags data1)
     = load_and_extract_hashtags lower data1
  /\ (length (load_and_extract_hashtags lower data1) <= length data1)%nat.
Proof.
  rewrite !load_and_extract_hashtags_map. repeat split.
  - now rewrite filter_app, map_app.
  - now rewrite filter_idempotent.
  - rewrite length_map. apply filter_length_le.
Qed.

(** X15.  The vocabulary of the analysis holds exactly the lower-cased
    tags of the posts: a tag is a label of the matrices when some post has
    a tag whose lower-case form it is, and only then. *)
Theorem vocabulary_lowercased (lower : string -> string)
    (list_of_set : list string -> list string) (data : list Post)
    (tag : string) :
  set_order list_of_set ->
  (In tag (unique_hashtags list_of_set (load_and_extract_hashtags lower data))
   <-> exists post tags t,
       In post data /\ hashtags post = Some tags /\ In t tags /\ tag = lower t).
Proof.
  intros Hset. rewrite unique_hashtags_In by assumption.
  rewrite load_and_extract_hashtags_map, in_concat. split.
  - intros (l & Hl & Ht). apply in_map_iff in Hl as (post & <- & Hp).
    apply filter_In in Hp as [Hp _].
    apply in_map_iff in Ht as (t & <- & Ht).
    unfold tags_of in Ht. destruct (hashtags post) as [tags |] eqn:E;
      [| destruct Ht].
    now exists post, tags, t.
  - intros (post & tags & t & Hp & E & Ht & ->).
    exists (map lower (tags_of post)). split.
    + apply in_map_iff. exists post. split; [reflexivity |].
      apply filter_In. split; [exact Hp |].
      unfold has_tags. rewrite E. destruct tags; [destruct Ht | reflexivity].
    + apply in_map. unfold tags_of. now rewrite E.
Qed.

Lemma vocabulary_lowercased_witness :
  In "b" (unique_hashtags last_seen
            (load_and_extract_hashtags lower_ascii [mkPost (Some ["A"; "B"])]))
  <-> exists post tags t,
      In post [mkPost (Some ["A"; "B"])] /\ hashtags post = Some tags
      /\ In t tags /\ "b" = lower_ascii t.
Proof.
  exact (vocabulary_lowercased lower_ascii last_seen [mkPost (Some ["A"; "B"])]
           "b" last_seen_order).
Defined.

(** X16.  What [analyze_hashtag_collocations] returns.  It raises nothing;
    both matrices are labelled, rows and columns, by the vocabulary of the
    lower-cased tag lists; the ranking is the default ranking of the PMI
    matrix, in descending order, and with k tags in the vocabulary it has
    the smaller of ten and k * (k - 1) / 2 rows. *)
Theorem analysis_result (lower : string -> string)
    (list_of_set : list string -> list string) (log2 : float -> float)
    (sort_values : list Collocation -> list Collocation) (data : list Post) :
  set_order list_of_set -> sorts_descending sort_values ->
  exists m p,
    analyze_hashtag_collocations lower list_of_set log2 sort_values data
    = Ok (mkAnalysis m p (get_top_collocations sort_values p None))
    /\ calculate_cooccurrence_matrix list_of_set
         (load_and_extract_hashtags lower data)
       = Ok (m, unique_hashtags list_of_set (load_and_extract_hashtags lower data))
    /\ calculate_pmi log2 m = Ok p
    /\ index m = unique_hashtags list_of_set (load_and_extract_hashtags lower data)
    /\ columns m = index m /\ index p = index m /\ columns p = index m
    /\ descending (get_top_collocations sort_values p None)
    /\ Z.of_nat (length (get_top_collocations sort_values p None))
       = Z.min 10 (choose2 (Z.of_nat (length (index m)))).
Proof.
  intros Hset Hsort.
  destruct (matrices_spec list_of_set log2
              (load_and_extract_hashtags lower data) Hset)
    as (m & p & E & Ep & I & C & Ip & Cp & _).
  exists m, p.
  split; [unfold analyze_hashtag_collocations; rewrite E; cbn [bind];
          now rewrite Ep |].
  do 3 (split; [assumption |]).
  split; [congruence |]. split; [assumption |]. split; [congruence |].
  destruct (Hsort (pmi_values p)) as [P D].
  change (get_top_collocations sort_values p None)
    with (head (sort_values (pmi_values p)) 10).
  split; [now apply head_StronglySorted |].
  rewrite head_length_exact, <- (Permutation_length P). cbn [Z.leb Z.compare].
  f_equal. rewrite <- Ip.
  assert (Z.of_nat (length (combinations2 (index p)))
          = choose2 (Z.of_nat (length (index p)))) as <-
    by apply combinations2_length.
  rewrite <- (length_map (row_of p)). do 2 f_equal.
  rewrite pmi_values_rows_from, Cp, C, <- I, <- Ip.
  apply (rows_of_ascending p (index p) []); [| intros c k []].
  rewrite Ip, I. now apply unique_hashtags_strictly.
Qed.

Lemma analysis_result_witness :
  exists m p,
    analyze_hashtag_collocations lower_ascii last_seen log2_interp
      sort_values_stable example_posts
    = Ok (mkAnalysis m p (get_top_collocations sort_values_stable p None))
    /\ calculate_cooccurrence_matrix last_seen
         (load_and_extract_hashtags lower_ascii example_posts)
       = Ok (m, unique_hashtags last_seen
                  (load_and_extract_hashtags lower_ascii example_posts))
    /\ calculate_pmi log2_interp m = Ok p
    /\ index m = unique_hashtags last_seen
                   (load_and_extract_hashtags lower_ascii example_posts)
    /\ columns m = index m /\ index p = index m /\ columns p = index m
    /\ descending (get_top_collocations sort_values_stable p None)
    /\ Z.of_nat (length (get_top_collocations sort_values_stable p None))
       = Z.min 10 (choose2 (Z.of_nat (length (index m)))).
Proof.
  exact (analysis_result lower_ascii last_seen log2_interp sort_values_stable
           example_posts last_seen_order sort_values_stable_sorts).
Defined.

(** ** Frames with the same labels and the same cells *)

Section SameCells.

Variable m1 m2 : DataFrame Z.
Hypothesis same_index : index m1 = index m2.
Hypothesis same_columns : columns m1 = columns m2.
Hypothesis same_cells : forall a b, cell m1 a b = cell m2 a b.

Lemma df_sum_same (c : string) : item (df_sum m1) c = item (df_sum m2) c.
Proof.
  unfold df_sum. cbn [item]. rewrite same_index.
  apply total_map_ext. intros r _. apply same_cells.
Qed.

Lemma total_cooccurrences_same : total_cooccurrences m1 = total_cooccurrences m2.
Proof.
  unfold total_cooccurrences, series_sum. do 2 f_equal.
  change (labels (df_sum m1)) with (columns m1).
  change (labels (df_sum m2)) with (columns m2).
  rewrite same_columns. apply total_map_ext. intros c _. apply df_sum_same.
Qed.

Lemma joint_prob_same (a b : string) : joint_prob m1 a b = joint_prob m2 a b.
Proof.
  unfold joint_prob. now rewrite same_cells, total_cooccurrences_same.
Qed.

Lemma writes_same (a b : string) : writes m1 a b = writes m2 a b.
Proof. unfold writes. now rewrite joint_prob_same. Qed.

Lemma pmi_score_same (log2 : float -> float) (a b : string) :
  pmi_score log2 m1 a b = pmi_score log2 m2 a b.
Proof.
  unfold pmi_score, marginal_probs. cbn [item].
  now rewrite joint_prob_same, !df_sum_same, total_cooccurrences_same.
Qed.

End SameCells.

Lemma pmi_values_same (p1 p2 : DataFrame float) :
  index p1 = index p2 -> columns p1 = columns p2 ->
  (forall a b, cell p1 a b = cell p2 a b) ->
  pmi_values p1 = pmi_values p2.
Proof.
  intros I C V. unfold pmi_values. rewrite I, C.
  apply flat_map_ext. intros a. apply flat_map_ext. intros b. now rewrite V.
Qed.

(** X17.  The analysis does not depend on the order of the posts: the
    same posts in another order give the same vocabulary, the same count
    and the same score in every cell, and the same ranking, row for row. *)
Theorem analysis_ignores_post_order (lower : string -> string)
    (list_of_set : list string -> list string) (log2 : float -> float)
    (sort_values : list Collocation -> list Collocation)
    (data1 data2 : list Post) :
  set_order list_of_set -> Permutation data1 data2 ->
  exists a1 a2,
    analyze_hashtag_collocations lower list_of_set log2 sort_values data1 = Ok a1
    /\ analyze_hashtag_collocations lower list_of_set log2 sort_values data2 = Ok a2
    /\ index (cooccurrence_matrix a1) = index (cooccurrence_matrix a2)
    /\ (forall a b,
          cell (cooccurrence_matrix a1) a b = cell (cooccurrence_matrix a2) a b
          /\ cell (pmi_matrix a1) a b = cell (pmi_matrix a2) a b)
    /\ top_collocations a1 = top_collocations a2.
Proof.
  intros Hset P.
  assert (Permutation (load_and_extract_hashtags lower data1)
            (load_and_extract_hashtags lower data2)) as PL
    by (rewrite !load_and_extract_hashtags_map;
        now apply Permutation_map, filter_perm).
  destruct (matrices_spec list_of_set log2
              (load_and_extract_hashtags lower data1) Hset)
    as (m1 & p1 & E1 & Ep1 & I1 & C1 & Ip1 & Cp1 & V1 & W1).
  destruct (matrices_spec list_of_set log2
              (load_and_extract_hashtags lower data2) Hset)
    as (m2 & p2 & E2 & Ep2 & I2 & C2 & Ip2 & Cp2 & V2 & W2).
  assert (unique_hashtags list_of_set (load_and_extract_hashtags lower data1)
          = unique_hashtags list_of_set (load_and_extract_hashtags lower data2))
    as U by (apply unique_hashtags_perm; [assumption | now apply concat_perm]).
  assert (index m1 = index m2) as I by congruence.
  assert (columns m1 = columns m2) as C by congruence.
  assert (forall a b, cell m1 a b = cell m2 a b) as V.
  { intros a b. rewrite V1, V2. apply pair_count_perm.
    unfold all_pairs. now apply Permutation_flat_map. }
  assert (forall a b, cell p1 a b = cell p2 a b) as W.
  { intros a b. rewrite W1, W2, I, C.
    now rewrite (writes_same m1 m2 I C V), (pmi_score_same m1 m2 I C V). }
  exists (mkAnalysis m1 p1 (get_top_collocations sort_values p1 None)),
         (mkAnalysis m2 p2 (get_top_collocations sort_values p2 None)).
  unfold analyze_hashtag_collocations.
  rewrite E1, E2. cbn [bind]. rewrite Ep1, Ep2. cbn [bind].
  do 2 (split; [reflexivity |]). cbn [cooccurrence_matrix pmi_matrix top_collocations].
  split; [exact I |]. split; [intros a b; split; [apply V | apply W] |].
  unfold get_top_collocations. f_equal. f_equal.
  apply pmi_values_same; [congruence | congruence | exact W].
Qed.

Lemma analysis_ignores_post_order_witness :
  exists a1 a2,
    analyze_hashtag_collocations lower_ascii last_seen log2_interp
      sort_values_stable example_posts = Ok a1
    /\ analyze_hashtag_collocations lower_ascii last_seen log2_interp
         sort_values_stable (rev example_posts) = Ok a2
    /\ index (cooccurrence_matrix a1) = index (cooccurrence_matrix a2)
    /\ (forall a b,
          cell (cooccurrence_matrix a1) a b = cell (cooccurrence_matrix a2) a b
          /\ cell (pmi_matrix a1) a b = cell (pmi_matrix a2) a b)
    /\ top_collocations a1 = top_collocations a2.
Proof.
  apply (analysis_ignores_post_order lower_ascii last_seen log2_interp
           sort_values_stable example_posts (rev example_posts)).
  - exact last_seen_order.
  - apply Permutation_rev.
Defined.

(** X18.  [calculate_pmi] keeps the symmetry of its argument: on any
    co-occurrence frame whose counts are symmetric it returns a frame of
    scores that is symmetric too, with zero on the diagonal. *)
Theorem pmi_keeps_symmetry (log2 : float -> float) (m : DataFrame Z) :
  cooccurrence_frame m ->
  (forall a b, cell m a b = cell m b a) ->
  exists p,
    calculate_pmi log2 m = Ok p
    /\ (forall a b, cell p a b = cell p b a)
    /\ forall a, cell p a a = 0%float.
Proof.
  intros (_ & C & _) S.
  destruct (calculate_pmi_spec log2 m) as (p & E & _ & _ & V);
    [rewrite C; apply incl_refl |].
  exists p. split; [exact E |]. split.
  - intros a b. rewrite !V, C.
    rewrite (writes_sym m a b (S a b)), (pmi_score_sym log2 m a b (S a b)).
    now rewrite (andb_comm (mem a (index m))).
  - intros a. rewrite V. unfold writes. rewrite String.eqb_refl.
    cbn [negb andb]. now rewrite andb_false_r.
Qed.

Lemma pmi_keeps_symmetry_witness :
  exists p,
    calculate_pmi log2_interp example_matrix = Ok p
    /\ (forall a b, cell p a b = cell p b a)
    /\ forall a, cell p a a = 0%float.
Proof.
  apply (pmi_keeps_symmetry log2_interp example_matrix).
  - exact example_matrix_frame.
  - intros a b. apply pair_count_sym.
Defined.
